(** * Caleb.me: the project pipeline and the small string utilities

    A shallow embedding of the logic layer of the site:

    - [utils/url] and [utils/str]: [isAbsoluteUrl], [formatUrlWithQuery],
      [slugify];
    - [data/projects]: the [Project] record, the fixture list and the
      asynchronous generator [loadProjects];
    - [utils/async] and [utils/object]: [bufferIterable], [deleteUndefined];
    - [pages/projects]: the two versions of [getStaticProps] with their
      sort comparators.

    Strings are sequences of 8-bit units (the UTF-8 bytes of a well-formed
    JavaScript string).  The regular expressions of the source carry no [u] flag and
    only name ASCII characters, so every unit above 127 is, for them, just
    a character outside every class they mention. *)

From stdpp Require Import gmap strings.
From Stdlib Require Import ZArith Ascii String List Sorted Permutation Lia Bool.
Import ListNotations.
Open Scope string_scope.

#[global] Arguments String.append !_ _ / : simpl nomatch.
#[global] Arguments String.length !_ / : simpl nomatch.

(** ** Strings *)

Module Str.

Fixpoint all (p : ascii -> bool) (s : string) : bool :=
  match s with
  | EmptyString => true
  | String c s' => p c && all p s'
  end.

Fixpoint dropWhile (p : ascii -> bool) (s : string) : string :=
  match s with
  | EmptyString => EmptyString
  | String c s' => if p c then dropWhile p s' else s
  end.

Fixpoint takeWhile (p : ascii -> bool) (s : string) : string :=
  match s with
  | EmptyString => EmptyString
  | String c s' => if p c then String c (takeWhile p s') else EmptyString
  end.

Definition is_char (a : ascii) (c : ascii) : bool := Ascii.eqb c a.

Definition between (lo hi c : ascii) : bool :=
  (Ascii.leb lo c && Ascii.leb c hi)%bool.

Definition is_upper (c : ascii) : bool := between "A" "Z" c.
Definition is_lower (c : ascii) : bool := between "a" "z" c.
Definition is_digit (c : ascii) : bool := between "0" "9" c.
Definition is_ascii (c : ascii) : bool := (N_of_ascii c <? 128)%N.

(** ASCII case mapping of one unit; everything but A-Z (resp. a-z) is
    left alone. *)
Definition lower (c : ascii) : ascii :=
  if is_upper c then ascii_of_N (N_of_ascii c + 32) else c.

Definition upper (c : ascii) : ascii :=
  if is_lower c then ascii_of_N (N_of_ascii c - 32) else c.

Fixpoint map (f : ascii -> ascii) (s : string) : string :=
  match s with
  | EmptyString => EmptyString
  | String c s' => String (f c) (map f s')
  end.

Fixpoint concat (l : list string) : string :=
  match l with
  | [] => EmptyString
  | s :: l' => s ++ concat l'
  end.

(** [String.prototype.split] with a one-character separator and no
    limit: the pieces between the occurrences of [sep]; never empty. *)
Fixpoint split (sep : ascii) (s : string) : list string :=
  match s with
  | EmptyString => [EmptyString]
  | String c s' =>
      match split sep s' with
      | piece :: rest =>
          if Ascii.eqb c sep then EmptyString :: piece :: rest
          else String c piece :: rest
      | [] => if Ascii.eqb c sep then [EmptyString; EmptyString] else [String c EmptyString]
      end
  end.

Fixpoint join (sep : string) (l : list string) : string :=
  match l with
  | [] => EmptyString
  | [s] => s
  | s :: l' => s ++ sep ++ join sep l'
  end.

End Str.

(** ** Regular expressions

    The fragment of ECMAScript regular expressions the source uses: a
    disjunction of sequences of terms, a term being an assertion ([^],
    [$]), a character class, or a greedy starred character class.  [x+] is
    written [x x*].  Matching is the backtracking matcher of the language
    specification: alternatives are tried left to right, a star first
    tries to take one more character and falls back to its continuation. *)

Module RegExp.

Record char_class := CharClass {
  negated : bool;
  ranges : list (ascii * ascii)
}.

Inductive term :=
| Bol                       (* ^ *)
| Eol                       (* $ *)
| One (k : char_class)      (* [...] or a literal character *)
| Star (k : char_class).    (* [...]* *)

Record t := RegExp {
  alternatives : list (list term);
  ignoreCase : bool
}.

Definition in_ranges (rs : list (ascii * ascii)) (c : ascii) : bool :=
  existsb (fun r => Str.between (fst r) (snd r) c) rs.

(** Membership of a unit in a class.  With the [i] flag a unit matches
    when some member of the class has the same canonical (upper-case)
    form; without the [u] flag only ASCII letters have one that differs
    from themselves among the ASCII members. *)
Definition class_mem (ic : bool) (k : char_class) (c : ascii) : bool :=
  xorb (negated k)
    (if ic
     then (in_ranges (ranges k) (Str.upper c) || in_ranges (ranges k) (Str.lower c))%bool
     else in_ranges (ranges k) c).

(** [match_seq ic p bol s] matches the sequence [p] at the front of [s]
    and returns what is left of [s]; [bol] tells whether [s] starts at
    index 0 of the subject. *)
Fixpoint match_seq (ic : bool) (p : list term) (bol : bool) (s : string)
  {struct p} : option string :=
  match p with
  | [] => Some s
  | Bol :: p' => if bol then match_seq ic p' bol s else None
  | Eol :: p' =>
      match s with
      | EmptyString => match_seq ic p' bol s
      | String _ _ => None
      end
  | One k :: p' =>
      match s with
      | EmptyString => None
      | String c s' => if class_mem ic k c then match_seq ic p' false s' else None
      end
  | Star k :: p' =>
      (fix star (bol : bool) (s : string) {struct s} : option string :=
         match s with
         | EmptyString => match_seq ic p' bol s
         | String c s' =>
             if class_mem ic k c
             then match star false s' with
                  | Some r => Some r
                  | None => match_seq ic p' bol s
                  end
             else match_seq ic p' bol s
         end) bol s
  end.

Fixpoint match_alts (ic : bool) (alts : list (list term)) (bol : bool)
  (s : string) : option string :=
  match alts with
  | [] => None
  | p :: alts' =>
      match match_seq ic p bol s with
      | Some r => Some r
      | None => match_alts ic alts' bol s
      end
  end.

Definition exec_at (re : t) (bol : bool) (s : string) : option string :=
  match_alts (ignoreCase re) (alternatives re) bol s.

(** [RegExp.prototype.test]: is there a match starting at some index. *)
Fixpoint search (re : t) (bol : bool) (s : string) : bool :=
  match exec_at re bol s with
  | Some _ => true
  | None =>
      match s with
      | EmptyString => false
      | String _ s' => search re false s'
      end
  end.

Definition test (re : t) (s : string) : bool := search re true s.

(** [String.prototype.replace] with a global pattern and a constant
    replacement: scan left to right; at a match emit the replacement and
    go on after the match (after one more unit, copied, when the match is
    empty); otherwise copy one unit. Every step consumes at least one
    unit, so [length s + 1] steps are enough. *)
Fixpoint replace_from (fuel : nat) (re : t) (rep : string) (bol : bool)
  (s : string) : string :=
  match fuel with
  | O => s
  | S fuel' =>
      match exec_at re bol s with
      | Some rest =>
          if (String.length rest <? String.length s)%nat
          then rep ++ replace_from fuel' re rep false rest
          else match s with
               | EmptyString => rep
               | String c s' => rep ++ String c (replace_from fuel' re rep false s')
               end
      | None =>
          match s with
          | EmptyString => EmptyString
          | String c s' => String c (replace_from fuel' re rep false s')
          end
      end
  end.

Definition replace (re : t) (rep : string) (s : string) : string :=
  replace_from (S (String.length s)) re rep true s.

(** Class literals. *)
Definition lit (c : ascii) : char_class := CharClass false [(c, c)].
Definition set (rs : list (ascii * ascii)) : char_class := CharClass false rs.
Definition nset (rs : list (ascii * ascii)) : char_class := CharClass true rs.
Definition plus (k : char_class) : list term := [One k; Star k].

End RegExp.

(** ** utils/url, utils/str *)

Definition is_letter (c : ascii) : bool := (Str.is_upper c || Str.is_lower c)%bool.

Definition is_scheme_char (c : ascii) : bool :=
  (is_letter c || Str.is_digit c
   || Str.is_char "+" c || Str.is_char "-" c || Str.is_char "." c)%bool.

(** The URI scheme prefix in the words of the specification: a letter,
    then letters, digits, [+], [-] or [.], then a colon. *)
Definition begins_with_scheme (url : string) : Prop :=
  exists (c : ascii) (body rest : string),
    url = String c (body ++ String ":" rest)
    /\ is_letter c = true
    /\ Str.all is_scheme_char body = true.


(** [/^[a-z][a-z\d+\-.]*:/i] *)
Definition re_scheme : RegExp.t :=
  RegExp.RegExp
    [[RegExp.Bol;
      RegExp.One (RegExp.set [("a", "z")]%char);
      RegExp.Star (RegExp.set [("a", "z"); ("0", "9"); ("+", "+"); ("-", "-"); (".", ".")]%char);
      RegExp.One (RegExp.lit ":")]]
    true.

Definition isAbsoluteUrl (url : string) : bool := RegExp.test re_scheme url.

(** [/[^a-z0-9]+/g] *)
Definition re_non_alnum : RegExp.t :=
  RegExp.RegExp [RegExp.plus (RegExp.nset [("a", "z"); ("0", "9")]%char)] false.

(** [/^-|-$/g] *)
Definition re_edge_hyphen : RegExp.t :=
  RegExp.RegExp
    [[RegExp.Bol; RegExp.One (RegExp.lit "-")];
     [RegExp.One (RegExp.lit "-"); RegExp.Eol]]
    false.

(** [String.prototype.toLowerCase] is the platform's Unicode mapping; the
    utilities take it as a parameter and the properties below only rely on
    what it does to ASCII text ([lowercases_ascii]). *)
Definition slugify (toLowerCase : string -> string) (text : string) : string :=
  RegExp.replace re_edge_hyphen ""
    (RegExp.replace re_non_alnum "-" (toLowerCase text)).

Definition lowercases_ascii (toLowerCase : string -> string) : Prop :=
  forall s, Str.all Str.is_ascii s = true -> toLowerCase s = Str.map Str.lower s.

(** *** The words of the specification for [slugify] *)

(** [a-z0-9] *)
Definition is_slug_char (c : ascii) : bool := (Str.is_lower c || Str.is_digit c)%bool.

Definition not_slug_char (c : ascii) : bool := negb (is_slug_char c).

(** The decomposition of a string into its maximal runs of units that
    satisfy [p] or do not: each run is tagged with the value of [p] on its
    units, and consecutive runs carry different tags. *)
Fixpoint runs (p : ascii -> bool) (s : string) : list (bool * string) :=
  match s with
  | EmptyString => []
  | String c s' =>
      match runs p s' with
      | (b, r) :: rest =>
          if Bool.eqb b (p c)
          then (b, String c r) :: rest
          else (p c, String c "") :: (b, r) :: rest
      | [] => [(p c, String c "")]
      end
  end.

(** Every maximal run of units outside [a-z0-9] becomes one hyphen. *)
Definition hyphenate_runs (s : string) : string :=
  Str.concat (map (fun r : bool * string => if fst r then "-" else snd r) (runs not_slug_char s)).

Fixpoint trim_trailing (p : ascii -> bool) (s : string) : string :=
  match s with
  | EmptyString => EmptyString
  | String c s' =>
      match trim_trailing p s' with
      | EmptyString => if p c then EmptyString else String c EmptyString
      | r => String c r
      end
  end.

(** All leading and all trailing hyphens go. *)
Definition trim_hyphens (s : string) : string :=
  trim_trailing (Str.is_char "-") (Str.dropWhile (Str.is_char "-") s).

Definition slugify_spec (toLowerCase : string -> string) (text : string) : string :=
  trim_hyphens (hyphenate_runs (toLowerCase text)).

Definition starts_with_hyphen (s : string) : bool :=
  match s with
  | String c _ => Str.is_char "-" c
  | EmptyString => false
  end.

Fixpoint no_double_hyphen (s : string) : bool :=
  match s with
  | EmptyString => true
  | String a s' =>
      (negb (Str.is_char "-" a && starts_with_hyphen s') && no_double_hyphen s')%bool
  end.

Fixpoint ends_with_hyphen (s : string) : bool :=
  match s with
  | EmptyString => false
  | String c EmptyString => Str.is_char "-" c
  | String _ s' => ends_with_hyphen s'
  end.

(** What a slug is made of: [[a-z0-9-]]. *)
Definition is_slug_or_hyphen (c : ascii) : bool :=
  (is_slug_char c || Str.is_char "-" c)%bool.

(** Adjacent runs of a decomposition carry different tags. *)
Fixpoint alternating (l : list (bool * string)) : Prop :=
  match l with
  | [] => True
  | (b, _) :: l' =>
      match l' with
      | [] => True
      | (b', _) :: _ => b <> b' /\ alternating l'
      end
  end.

(** ** URLSearchParams

    The query-string object of the URL Standard: an ordered list of
    name-value pairs, read with the [application/x-www-form-urlencoded]
    parser and written with its serializer. *)

Module URLSearchParams.

Definition t := list (string * string).

Definition hex_value (c : ascii) : option N :=
  if Str.is_digit c then Some (N_of_ascii c - 48)%N
  else if Str.between "A" "F" c then Some (N_of_ascii c - 55)%N
  else if Str.between "a" "f" c then Some (N_of_ascii c - 87)%N
  else None.

(** Percent-decoding of a byte sequence: [%XY] with two hexadecimal
    digits is one byte, any other [%] stands for itself. *)
Fixpoint percent_decode (s : string) : string :=
  match s with
  | EmptyString => EmptyString
  | String c s' =>
      if Str.is_char "%" c
      then match s' with
           | String h (String l s'') =>
               match hex_value h, hex_value l with
               | Some a, Some b =>
                   String (ascii_of_N (16 * a + b)) (percent_decode s'')
               | _, _ => String c (percent_decode s')
               end
           | _ => String c (percent_decode s')
           end
      else String c (percent_decode s')
  end.

(** U+FFFD REPLACEMENT CHARACTER, in UTF-8. *)
Definition replacement : string :=
  String (ascii_of_N 239) (String (ascii_of_N 191) (String (ascii_of_N 189) "")).

(** The UTF-8 decoder on a lead byte: what it emits at once, and the
    number of continuation bytes it now waits for, with the bounds of the
    next one and the bytes held back. *)
Definition utf8_lead (b : ascii) : string * (nat * N * N * string) :=
  let n := N_of_ascii b in
  if (n <=? 127)%N then (String b "", (O, 128, 191, ""))%N
  else if ((194 <=? n) && (n <=? 223))%N then ("", (1%nat, 128, 191, String b ""))%N
  else if ((224 <=? n) && (n <=? 239))%N
  then ("", (2%nat, if n =? 224 then 160 else 128, if n =? 237 then 159 else 191,
             String b ""))%N
  else if ((240 <=? n) && (n <=? 244))%N
  then ("", (3%nat, if n =? 240 then 144 else 128, if n =? 244 then 143 else 191,
             String b ""))%N
  else (replacement, (O, 128, 191, ""))%N.

(** "UTF-8 decode without BOM": well-formed sequences go through, every
    malformed one becomes U+FFFD; a byte that cannot continue a sequence
    ends it and is read again as a lead byte. *)
Fixpoint utf8_decode_from (needed : nat) (lo hi : N) (held : string)
  (s : string) : string :=
  match s with
  | EmptyString =>
      match needed with
      | O => EmptyString
      | S _ => replacement
      end
  | String b s' =>
      match needed with
      | O =>
          let '(out, (n, l, h, p)) := utf8_lead b in
          out ++ utf8_decode_from n l h p s'
      | S m =>
          if ((lo <=? N_of_ascii b) && (N_of_ascii b <=? hi))%N
          then match m with
               | O => held ++ String b (utf8_decode_from O 128 191 "" s')
               | S _ => utf8_decode_from m 128 191 (held ++ String b "") s'
               end
          else
            let '(out, (n, l, h, p)) := utf8_lead b in
            replacement ++ out ++ utf8_decode_from n l h p s'
      end
  end.

Definition utf8_decode (s : string) : string := utf8_decode_from O 128 191 "" s.

Definition plus_to_space (c : ascii) : ascii :=
  if Str.is_char "+" c then " "%char else c.

Definition decode_component (bytes : string) : string :=
  utf8_decode (percent_decode (Str.map plus_to_space bytes)).

Definition not_char (a : ascii) (c : ascii) : bool := negb (Str.is_char a c).

Definition tail (s : string) : string :=
  match s with
  | EmptyString => EmptyString
  | String _ s' => s'
  end.

(** One [name=value] sequence: the name runs up to the first [=], the
    value is what follows it (empty without [=]). *)
Definition parse_pair (bytes : string) : string * string :=
  (decode_component (Str.takeWhile (not_char "=") bytes),
   decode_component (tail (Str.dropWhile (not_char "=") bytes))).

Definition nonempty (s : string) : bool :=
  match s with
  | EmptyString => false
  | String _ _ => true
  end.

Definition parse (input : string) : t :=
  map parse_pair (filter nonempty (Str.split "&" input)).

(** [new URLSearchParams(init)]: no pair for [undefined]; a string loses
    one leading [?] and is parsed. *)
Definition create (init : option string) : t :=
  match init with
  | None => []
  | Some s =>
      parse (match s with
             | String c s' => if Str.is_char "?" c then s' else s
             | EmptyString => s
             end)
  end.

Definition remove (name : string) (l : t) : t :=
  filter (fun e : string * string => negb (String.eqb (fst e) name)) l.

(** [set(name, value)]: the first pair called [name] takes the value and
    the later ones go; without such a pair a new one is appended. *)
Fixpoint set (name value : string) (l : t) : t :=
  match l with
  | [] => [(name, value)]
  | e :: l' =>
      if String.eqb (fst e) name
      then (name, value) :: remove name l'
      else e :: set name value l'
  end.

Definition getAll (name : string) (l : t) : list string :=
  map snd (filter (fun e : string * string => String.eqb (fst e) name) l).

Definition unreserved (c : ascii) : bool :=
  (Str.is_upper c || Str.is_lower c || Str.is_digit c
   || Str.is_char "*" c || Str.is_char "-" c || Str.is_char "." c
   || Str.is_char "_" c)%bool.

Definition hex_digit (n : N) : ascii :=
  if (n <? 10)%N then ascii_of_N (48 + n) else ascii_of_N (55 + n).

Definition percent_encode_byte (c : ascii) : string :=
  if Str.is_char " " c then "+"
  else if unreserved c then String c ""
  else String "%" (String (hex_digit (N_of_ascii c / 16))
                     (String (hex_digit (N_of_ascii c mod 16)) "")).

Fixpoint percent_encode (s : string) : string :=
  match s with
  | EmptyString => EmptyString
  | String c s' => percent_encode_byte c ++ percent_encode s'
  end.

Definition toString (l : t) : string :=
  Str.join "&"
    (map (fun e : string * string => percent_encode (fst e) ++ "=" ++ percent_encode (snd e)) l).

End URLSearchParams.

(** A possibly missing array element, as string concatenation shows it. *)
Definition string_of_element (x : option string) : string :=
  match x with
  | Some s => s
  | None => "undefined"
  end.

(** [params] is the list [Object.entries(params)]: the own properties of
    the object in property order, each key once. *)
Definition formatUrlWithQuery (url : string) (params : list (string * string)) : string :=
  let parts := firstn 2 (Str.split "?" url) in
  let base := nth_error parts 0 in
  let search := nth_error parts 1 in
  let searchParams :=
    fold_left (fun sp (entry : string * string) => URLSearchParams.set (fst entry) (snd entry) sp)
      params (URLSearchParams.create search) in
  string_of_element base ++ "?" ++ URLSearchParams.toString searchParams.

(** *** The words of the specification for [formatUrlWithQuery] *)

(** What comes before the first [c], and what comes after it. *)
Definition before (c : ascii) (s : string) : string :=
  Str.takeWhile (URLSearchParams.not_char c) s.

Definition after (c : ascii) (s : string) : string :=
  URLSearchParams.tail (Str.dropWhile (URLSearchParams.not_char c) s).

Definition set_all (params : list (string * string)) (q : URLSearchParams.t) :
  URLSearchParams.t :=
  fold_left (fun sp (entry : string * string) => URLSearchParams.set (fst entry) (snd entry) sp) params q.

(** "Splits [url] on the first [?] into base path and existing query
    string; for each key in [params], overwrites (or adds) that key; returns
    [base + '?' + serialized query]." *)
Definition formatUrlWithQuery_spec (url : string) (params : list (string * string)) : string :=
  before "?" url ++ "?"
  ++ URLSearchParams.toString (set_all params (URLSearchParams.parse (after "?" url))).

(** The existing query string the code works on: the text between the
    first [?] and the next one. *)
Definition existing_query (url : string) : string := before "?" (after "?" url).

Definition has_char (c : ascii) (s : string) : bool :=
  negb (Str.all (URLSearchParams.not_char c) s).

(** ** data/projects *)

(** An optional property of an object: the key is not there, the key is
    bound to [undefined], or the key is bound to a value. *)
Inductive optional (A : Type) : Type :=
| absent
| undefined
| present (a : A).

Arguments absent {A}.
Arguments undefined {A}.
Arguments present {A} a.

(** [stars] and [downloads] are numbers that hold non-negative integers;
    they are integers here, and [b.stars - a.stars] is exact. *)
Record Project := {
  name : string;
  url : string;
  archived : bool;
  description : optional string;
  homepageUrl : optional string;
  stars : Z;
  downloads : Z;
  language : optional string;
  githubUrl : string
}.

(** An asynchronous generator, as the program its body still has to run:
    it has returned, it awaits a timer and goes on, or it yields a value
    and goes on when asked for the next one. *)
Inductive AsyncGenerator (A : Type) : Type :=
| Return
| Await (k : AsyncGenerator A)
| Yield (value : A) (k : AsyncGenerator A).

Arguments Return {A}.
Arguments Await {A} k.
Arguments Yield {A} value k.

(** The loader that reads the fixture list [fakes] of
    [data/projects/fakes]:
[[
    for (const project of fakes) {
      await new Promise(resolve => setTimeout(resolve, 0));
      yield project;
    }
]] *)
Definition loadProjects (fakes : list Project) : AsyncGenerator Project :=
  fold_right (fun project rest => Await (Yield project rest)) Return fakes.

(** [generator.next()]: the body runs up to its next [yield] or to its end;
    the result is the number of timers awaited on the way and, with a
    value, the generator that remains. *)
Fixpoint next {A : Type} (g : AsyncGenerator A) : nat * option (A * AsyncGenerator A) :=
  match g with
  | Return => (O, None)
  | Await k => let (n, r) := next k in (S n, r)
  | Yield value k => (O, Some (value, k))
  end.

Inductive event (A : Type) : Type :=
| Suspended
| Produced (value : A).

Arguments Suspended {A}.
Arguments Produced {A} value.

(** What a consumer that drains the generator observes, in order. *)
Fixpoint trace {A : Type} (g : AsyncGenerator A) : list (event A) :=
  match g with
  | Return => []
  | Await k => Suspended :: trace k
  | Yield value k => Produced value :: trace k
  end.

(** ** utils/async *)

(** Modelled from the spec: [utils/async] is not among the sources;
    [bufferIterable] "drains the full lazy sequence into an ordered,
    insertion-order-preserving list". *)
Fixpoint bufferIterable {A : Type} (g : AsyncGenerator A) : list A :=
  match g with
  | Return => []
  | Await k => bufferIterable k
  | Yield value k => value :: bufferIterable k
  end.

(** ** utils/object *)

(** The values of object properties. *)
#[warnings="-register-all"]
Inductive Val : Type :=
| VUndefined
| VNull
| VBool (b : bool)
| VNum (z : Z)
| VStr (s : string)
| VObj (o : gmap string Val).

Definition is_undefined (v : Val) : bool :=
  match v with
  | VUndefined => true
  | _ => false
  end.

(** Modelled from the spec: [utils/object] is not among the sources;
    [deleteUndefined] works "in place, for every record and every key whose
    value is absent, removes that key entirely (recursively for nested
    objects)".  The result is the content of the object after the call. *)
Fixpoint deleteUndefinedVal (v : Val) : Val :=
  match v with
  | VObj o =>
      VObj (omap (fun x => if is_undefined x then None else Some (deleteUndefinedVal x)) o)
  | _ => v
  end.

(** Modelled from the spec: [deleteUndefined] on one record: the keys
    bound to [undefined] go, the nested objects are cleaned in turn. *)
Definition deleteUndefinedObj (o : gmap string Val) : gmap string Val :=
  omap (fun x => if is_undefined x then None else Some (deleteUndefinedVal x)) o.

(** Modelled from the spec: [deleteUndefined] on an array of records.
    Records are objects of a store, known by their address, and the array
    [L] is the list of the addresses of its records; the call leaves the
    array as it is and updates, in the store, each record the array refers
    to.  The result is the store after the call. *)
Definition deleteUndefined (L : list nat) (store : gmap nat (gmap string Val)) :
  gmap nat (gmap string Val) :=
  fold_left (fun st a => alter deleteUndefinedObj a st) L store.

(** Nothing is bound to [undefined], at any depth. *)
Inductive no_undefined : Val -> Prop :=
| no_undefined_null : no_undefined VNull
| no_undefined_bool b : no_undefined (VBool b)
| no_undefined_num z : no_undefined (VNum z)
| no_undefined_str s : no_undefined (VStr s)
| no_undefined_obj o :
    (forall k x, o !! k = Some x -> no_undefined x) -> no_undefined (VObj o).

Fixpoint size_of (v : Val) : nat :=
  match v with
  | VObj o => S (map_fold (fun _ x acc => (size_of x + acc)%nat) O o)
  | _ => 1%nat
  end.

Definition is_primitive (v : Val) : bool :=
  match v with
  | VUndefined | VObj _ => false
  | _ => true
  end.

(** A [Project] as the object it is at run time. *)
Definition bind_optional (key : string) (x : optional string)
  (o : gmap string Val) : gmap string Val :=
  match x with
  | absent => o
  | undefined => <[key := VUndefined]> o
  | present s => <[key := VStr s]> o
  end.

Definition toObj (p : Project) : gmap string Val :=
  bind_optional "description" (description p)
    (bind_optional "homepageUrl" (homepageUrl p)
       (bind_optional "language" (language p)
          (<["name" := VStr (name p)]>
             (<["url" := VStr (url p)]>
                (<["archived" := VBool (archived p)]>
                   (<["stars" := VNum (stars p)]>
                      (<["downloads" := VNum (downloads p)]>
                         (<["githubUrl" := VStr (githubUrl p)]> ∅)))))))).

Definition strip_undefined {A : Type} (x : optional A) : optional A :=
  match x with
  | undefined => absent
  | _ => x
  end.

(** Modelled from the spec: [deleteUndefined] seen on the typed record;
    the required properties always hold a value, an optional one bound to
    [undefined] goes ([deleteUndefinedObj_toObj] below relates the two
    views). *)
Definition deleteUndefinedProject (p : Project) : Project :=
  {| name := name p;
     url := url p;
     archived := archived p;
     description := strip_undefined (description p);
     homepageUrl := strip_undefined (homepageUrl p);
     stars := stars p;
     downloads := downloads p;
     language := strip_undefined (language p);
     githubUrl := githubUrl p |}.

(** ** Array.prototype.sort

    Since ECMAScript 2019 the sort is stable, and with a consistent
    comparator its result is fixed by the language: the elements in
    non-decreasing order of the comparator, those it deems equal in their
    former order.  A stable insertion sort computes that list
    ([sort_unique] below); the array is sorted in place, [sort] gives its
    content after the call. *)

Fixpoint insert {A : Type} (compareFn : A -> A -> Z) (x : A) (l : list A) : list A :=
  match l with
  | [] => [x]
  | y :: l' =>
      if (compareFn x y <=? 0)%Z then x :: y :: l'
      else y :: insert compareFn x l'
  end.

Definition sort {A : Type} (compareFn : A -> A -> Z) (l : list A) : list A :=
  fold_right (insert compareFn) [] l.

Definition le_by {A : Type} (compareFn : A -> A -> Z) (a b : A) : Prop :=
  (compareFn a b <= 0)%Z.

(** A consistent comparator, as the language requires it of [compareFn]. *)
Record consistent {A : Type} (compareFn : A -> A -> Z) : Prop := {
  compare_antisym : forall a b, Z.sgn (compareFn a b) = (- Z.sgn (compareFn b a))%Z;
  compare_trans : forall a b c,
    (compareFn a b <= 0)%Z -> (compareFn b c <= 0)%Z -> (compareFn a c <= 0)%Z
}.

(** ** pages/projects *)

(** The comparator of the showcase grid.  [localeCompare] is the
    platform's collation, a parameter here.
[[
    (a, b) => {
      if (a.archived !== b.archived) { return a.archived ? 1 : -1; }
      return a.name.localeCompare(b.name);
    }
]] *)
Definition byArchivedThenName (localeCompare : string -> string -> Z)
  (a b : Project) : Z :=
  if negb (Bool.eqb (archived a) (archived b))
  then (if archived a then 1 else -1)%Z
  else localeCompare (name a) (name b).

(** The comparator of the ranked list, [(a, b) => b.stars - a.stars]. *)
Definition byStarsDescending (a b : Project) : Z := (stars b - stars a)%Z.

(** [getStaticProps] of the showcase grid:
[[
    const projects = await bufferIterable(loadProjects());
    deleteUndefined(projects);
    projects.sort(...);
]]
    Each [let] is the array [projects] after the statement. *)
Definition getStaticProps_grid (localeCompare : string -> string -> Z)
  (fakes : list Project) : list Project :=
  let projects := bufferIterable (loadProjects fakes) in
  let projects := map deleteUndefinedProject projects in
  sort (byArchivedThenName localeCompare) projects.

(** [getStaticProps] of the ranked list, the same with
    [projects.sort((a, b) => b.stars - a.stars)]. *)
Definition getStaticProps_ranked (fakes : list Project) : list Project :=
  let projects := bufferIterable (loadProjects fakes) in
  let projects := map deleteUndefinedProject projects in
  sort byStarsDescending projects.

(** The order of the showcase grid, in the words of the specification:
    the projects that are not archived come first, and each of the two
    parts is in alphabetical order of the names. *)
Definition name_le (localeCompare : string -> string -> Z) (a b : Project) : Prop :=
  (localeCompare (name a) (name b) <= 0)%Z.

Definition grid_ordered (localeCompare : string -> string -> Z) (l : list Project) : Prop :=
  exists active retired : list Project,
    l = (active ++ retired)%list
    /\ Forall (fun p => archived p = false) active
    /\ Forall (fun p => archived p = true) retired
    /\ Sorted (name_le localeCompare) active
    /\ Sorted (name_le localeCompare) retired.

(** A project with the three properties the orders look at. *)
Definition project (n : string) (a : bool) (s : Z) : Project :=
  {| name := n; url := ""; archived := a; description := absent;
     homepageUrl := absent; stars := s; downloads := 0; language := absent;
     githubUrl := "" |}.

(** The order of code units, a collation to try the comparator with. *)
Definition compareCodeUnits (a b : string) : Z :=
  match String.compare a b with
  | Lt => (-1)%Z
  | Eq => 0%Z
  | Gt => 1%Z
  end.

(** The generator left after one more [next()]. *)
Definition advance {A : Type} (g : AsyncGenerator A) : AsyncGenerator A :=
  match snd (next g) with
  | Some (_, k) => k
  | None => Return
  end.

(** The records of the end-to-end example of the specification. *)
Definition example_B : Project := project "B" false 1.
Definition example_A : Project := project "A" true 5.
Definition example_C : Project := project "C" false 3.

(** A record with an optional property bound to [undefined] and with
    falsy values. *)
Definition example_record : Project :=
  {| name := ""; url := "u"; archived := false; description := undefined;
     homepageUrl := absent; stars := 0; downloads := 0; language := present "";
     githubUrl := "" |}.

(** ** Further definitions

    What the properties of the second part speak about: the alphabet of a
    serialized query, well-formed UTF-8, and the code around the pipeline
    (what the two pages compute from the list, the other loaders, the
    site address of the build configuration). *)

(** [Array.prototype.filter] on the units of a string. *)
Fixpoint filter_chars (p : ascii -> bool) (s : string) : string :=
  match s with
  | EmptyString => EmptyString
  | String c s' => if p c then String c (filter_chars p s') else filter_chars p s'
  end.

(** The units the serializer of [URLSearchParams] writes: the unreserved
    ones, [%] and [+], and the separators [=] and [&]. *)
Definition is_query_char (c : ascii) : bool :=
  (URLSearchParams.unreserved c
   || Str.is_char "%" c || Str.is_char "+" c
   || Str.is_char "=" c || Str.is_char "&" c)%bool.

Definition in_range (lo hi : N) (c : ascii) : Prop :=
  (lo <= N_of_ascii c <= hi)%N.

(** Well-formed UTF-8, sequence by sequence. *)
Inductive utf8 : string -> Prop :=
| utf8_nil : utf8 ""
| utf8_one b s :
    (N_of_ascii b <= 127)%N -> utf8 s -> utf8 (String b s)
| utf8_two b c1 s :
    in_range 194 223 b -> in_range 128 191 c1 -> utf8 s ->
    utf8 (String b (String c1 s))
| utf8_three b c1 c2 s :
    in_range 224 239 b ->
    in_range (if N_of_ascii b =? 224 then 160 else 128)%N
             (if N_of_ascii b =? 237 then 159 else 191)%N c1 ->
    in_range 128 191 c2 -> utf8 s ->
    utf8 (String b (String c1 (String c2 s)))
| utf8_four b c1 c2 c3 s :
    in_range 240 244 b ->
    in_range (if N_of_ascii b =? 240 then 144 else 128)%N
             (if N_of_ascii b =? 244 then 143 else 191)%N c1 ->
    in_range 128 191 c2 -> in_range 128 191 c3 -> utf8 s ->
    utf8 (String b (String c1 (String c2 (String c3 s)))).

(** The bytes a decoder in the middle of a sequence still accepts: [n]
    of them, the first within [lo..hi], the others continuation bytes. *)
Fixpoint continuation (n : nat) (lo hi : N) (t : string) : Prop :=
  match n with
  | O => t = EmptyString
  | S m =>
      match t with
      | EmptyString => False
      | String c t' => in_range lo hi c /\ continuation m 128 191 t'
      end
  end.

(** What the decoder holds back is the start of a well-formed sequence. *)
Definition decoder_ready (needed : nat) (lo hi : N) (held : string) : Prop :=
  needed = O
  \/ forall t s, continuation needed lo hi t -> utf8 s -> utf8 (held ++ t ++ s).

(** A string the decoder leaves as it is; every JavaScript string is one,
    seen as bytes. *)
Definition well_formed (s : string) : Prop := URLSearchParams.utf8_decode s = s.

Definition well_formed_entries (l : list (string * string)) : Prop :=
  Forall (fun e : string * string => well_formed (fst e) /\ well_formed (snd e)) l.


(** The grid page, [{projects.filter((p) => !p.archived).length} Active]. *)
Definition activeCount (projects : list Project) : nat :=
  length (filter (fun p => negb (archived p)) projects).

(** The ranked page, the border of a card.  The argument of [classnames]
    is an object; its keys with a true value are the classes, in the order
    of the object.
[[
    'border-purple-500': project.stars >= 1000,
    'border-purple-300': project.stars >= 100 && project.stars < 1000,
    'dark:border-purple-700': project.stars >= 100 && project.stars < 1000,
    'border-purple-100': project.stars < 100,
    'dark:border-purple-900': project.stars < 100
]] *)
Definition borderClasses (p : Project) : list string :=
  map fst
    (filter (fun kv : string * bool => snd kv)
       [("border-purple-500", (stars p >=? 1000)%Z);
        ("border-purple-300", ((stars p >=? 100) && (stars p <? 1000))%Z);
        ("dark:border-purple-700", ((stars p >=? 100) && (stars p <? 1000))%Z);
        ("border-purple-100", (stars p <? 100)%Z);
        ("dark:border-purple-900", (stars p <? 100)%Z)]).

(** [yield* items] on an array. *)
Definition yieldAll {A : Type} (items : list A) : AsyncGenerator A :=
  fold_right Yield Return items.

(** The loader that depends on the environment, [isProduction] being the
    answer of [isProduction()] of [utils/env]:
[[
    if (!isProduction()) { yield* fakes; return; }
]]
    and nothing after it. *)
Definition loadProjects_byEnvironment (isProduction : bool)
  (fakes : list Project) : AsyncGenerator Project :=
  if negb isProduction then yieldAll fakes else Return.

(** [data/speaking]: [yield* engagements]. *)
Definition loadSpeakingEngagements {A : Type} (engagements : list A) : AsyncGenerator A :=
  yieldAll engagements.

(** The build configuration, [env.SITE_URL]; an environment variable is a
    string or is not set.
[[
    (process.env['SITE_URL'] ??
      (process.env['VERCEL_URL'] && 'https://' + process.env['VERCEL_URL'])) ??
    'http://localhost:3000'
]] *)
Definition siteUrl (SITE_URL VERCEL_URL : option string) : string :=
  let vercel :=
    match VERCEL_URL with
    | None => None
    | Some v => if URLSearchParams.nonempty v then Some ("https://" ++ v) else Some v
    end in
  let first :=
    match SITE_URL with
    | Some s => Some s
    | None => vercel
    end in
  match first with
  | Some s => s
  | None => "http://localhost:3000"
  end.

(** No archived project before one that is not. *)
Definition archived_last (a b : Project) : Prop :=
  archived a = true -> archived b = true.

(** The units of one serialized name or value. *)
Definition is_component_char (c : ascii) : bool :=
  (URLSearchParams.unreserved c || Str.is_char "%" c || Str.is_char "+" c)%bool.

Definition serialize_pair (e : string * string) : string :=
  URLSearchParams.percent_encode (fst e) ++ "=" ++ URLSearchParams.percent_encode (snd e).

(** * Properties *)

Example isAbsoluteUrl_https : isAbsoluteUrl "https://example.com" = true.
Proof. reflexivity. Qed.
Example isAbsoluteUrl_path : isAbsoluteUrl "/projects" = false.
Proof. reflexivity. Qed.
Example isAbsoluteUrl_upper : isAbsoluteUrl "MAILTO:x" = true.
Proof. reflexivity. Qed.
Example isAbsoluteUrl_mid : isAbsoluteUrl "/a http://x" = false.
Proof. reflexivity. Qed.
Example isAbsoluteUrl_digit : isAbsoluteUrl "1a:" = false.
Proof. reflexivity. Qed.

(** *** Unfolding equations of the matcher *)

Lemma match_seq_star ic k p bol s :
  RegExp.match_seq ic (RegExp.Star k :: p) bol s =
  match s with
  | EmptyString => RegExp.match_seq ic p bol s
  | String c s' =>
      if RegExp.class_mem ic k c
      then match RegExp.match_seq ic (RegExp.Star k :: p) false s' with
           | Some r => Some r
           | None => RegExp.match_seq ic p bol s
           end
      else RegExp.match_seq ic p bol s
  end.
Proof. destruct s; reflexivity. Qed.

Lemma match_seq_one ic k p bol s :
  RegExp.match_seq ic (RegExp.One k :: p) bol s =
  match s with
  | EmptyString => None
  | String c s' =>
      if RegExp.class_mem ic k c then RegExp.match_seq ic p false s' else None
  end.
Proof. reflexivity. Qed.

Lemma match_seq_bol ic p bol s :
  RegExp.match_seq ic (RegExp.Bol :: p) bol s =
  if bol then RegExp.match_seq ic p bol s else None.
Proof. reflexivity. Qed.

Lemma match_seq_eol ic p bol s :
  RegExp.match_seq ic (RegExp.Eol :: p) bol s =
  match s with
  | EmptyString => RegExp.match_seq ic p bol s
  | String _ _ => None
  end.
Proof. reflexivity. Qed.

(** *** Facts on strings *)

Lemma append_nil_r (s : string) : s ++ "" = s.
Proof. induction s; simpl; congruence. Qed.

Lemma append_assoc (a b c : string) : (a ++ b) ++ c = a ++ (b ++ c).
Proof. induction a; simpl; congruence. Qed.



Lemma takeWhile_dropWhile p s : Str.takeWhile p s ++ Str.dropWhile p s = s.
Proof.
  induction s as [|c s IH]; simpl; [reflexivity|].
  destruct (p c); simpl; congruence.
Qed.

Lemma all_takeWhile p s : Str.all p (Str.takeWhile p s) = true.
Proof.
  induction s as [|c s IH]; simpl; [reflexivity|].
  destruct (p c) eqn:E; simpl; [rewrite E; assumption | reflexivity].
Qed.

Lemma dropWhile_append_stop p a c b :
  Str.all p a = true -> p c = false ->
  Str.dropWhile p (a ++ String c b) = String c b.
Proof.
  induction a as [|x a IH]; simpl; intros Ha Hc.
  - rewrite Hc. reflexivity.
  - apply andb_prop in Ha as [Hx Ha]. rewrite Hx. auto.
Qed.

Lemma dropWhile_all p s : Str.all p s = true -> Str.dropWhile p s = "".
Proof.
  induction s as [|c s IH]; simpl; [reflexivity|].
  intros H. apply andb_prop in H as [Hc Hs]. rewrite Hc. auto.
Qed.

Lemma length_dropWhile p s :
  (String.length (Str.dropWhile p s) <= String.length s)%nat.
Proof.
  induction s as [|c s IH]; simpl; [lia|].
  destruct (p c); simpl; lia.
Qed.

(** *** isAbsoluteUrl *)

Ltac each_ascii c :=
  destruct c as [[] [] [] [] [] [] [] []]; try reflexivity.

Lemma class_letter_i c :
  RegExp.class_mem true (RegExp.set [("a", "z")]%char) c = is_letter c.
Proof. each_ascii c. Qed.

Lemma class_scheme_i c :
  RegExp.class_mem true
    (RegExp.set [("a", "z"); ("0", "9"); ("+", "+"); ("-", "-"); (".", ".")]%char) c
  = is_scheme_char c.
Proof. each_ascii c. Qed.

Lemma class_colon ic c :
  RegExp.class_mem ic (RegExp.lit ":") c = Str.is_char ":" c.
Proof. destruct ic; each_ascii c. Qed.

Lemma scheme_char_not_colon c : is_scheme_char c = true -> Str.is_char ":" c = false.
Proof. each_ascii c; intros H; discriminate H. Qed.

(** The starred class followed by the colon: the star stops at the first
    unit outside the class, and backing off cannot help since the colon is
    not in the class. *)
Lemma match_scheme_tail bol s :
  RegExp.match_seq true
    [RegExp.Star (RegExp.set [("a", "z"); ("0", "9"); ("+", "+"); ("-", "-"); (".", ".")]%char);
     RegExp.One (RegExp.lit ":")] bol s
  = match Str.dropWhile is_scheme_char s with
    | String c r => if Str.is_char ":" c then Some r else None
    | EmptyString => None
    end.
Proof.
  revert bol. induction s as [|c s IH]; intros bol.
  - reflexivity.
  - rewrite match_seq_star, class_scheme_i. simpl Str.dropWhile.
    destruct (is_scheme_char c) eqn:E.
    + rewrite IH.
      destruct (Str.dropWhile is_scheme_char s) as [|d r]; [|destruct (Str.is_char ":" d)].
      * rewrite match_seq_one, class_colon, (scheme_char_not_colon _ E). reflexivity.
      * reflexivity.
      * rewrite match_seq_one, class_colon, (scheme_char_not_colon _ E). reflexivity.
    + rewrite match_seq_one, class_colon. reflexivity.
Qed.

Lemma search_scheme_not_bol s : RegExp.search re_scheme false s = false.
Proof. induction s as [|c s IH]; simpl; auto. Qed.

Lemma isAbsoluteUrl_eq url :
  isAbsoluteUrl url =
  match url with
  | EmptyString => false
  | String c s =>
      (is_letter c &&
       match Str.dropWhile is_scheme_char s with
       | String d _ => Str.is_char ":" d
       | EmptyString => false
       end)%bool
  end.
Proof.
  unfold isAbsoluteUrl, RegExp.test.
  destruct url as [|c s]; [reflexivity|].
  unfold RegExp.search; fold RegExp.search.
  unfold RegExp.exec_at, re_scheme; simpl RegExp.alternatives; simpl RegExp.ignoreCase.
  unfold RegExp.match_alts.
  rewrite match_seq_bol, match_seq_one, class_letter_i.
  destruct (is_letter c); simpl.
  - rewrite match_scheme_tail.
    destruct (Str.dropWhile is_scheme_char s) as [|d r].
    + apply search_scheme_not_bol.
    + destruct (Str.is_char ":" d); [reflexivity | apply search_scheme_not_bol].
  - apply search_scheme_not_bol.
Qed.

Lemma is_char_eq a c : Str.is_char a c = true <-> c = a.
Proof. unfold Str.is_char. apply Ascii.eqb_eq. Qed.

(** C7. [isAbsoluteUrl url] is true exactly when [url] begins with a URI
    scheme: a letter of either case, then any number of letters, digits,
    [+], [-] or [.], then a colon; it holds of ["https://example.com"] and
    not of ["/projects"]. *)
Theorem isAbsoluteUrl_iff_scheme :
  (forall url : string, isAbsoluteUrl url = true <-> begins_with_scheme url)
  /\ isAbsoluteUrl "https://example.com" = true
  /\ isAbsoluteUrl "/projects" = false.
Proof.
  split; [|split; reflexivity].
  intros url. rewrite isAbsoluteUrl_eq. split.
  - destruct url as [|c s]; [discriminate|].
    intros H. apply andb_prop in H as [Hc Hs].
    destruct (Str.dropWhile is_scheme_char s) as [|d r] eqn:E; [discriminate|].
    apply is_char_eq in Hs. subst d.
    exists c, (Str.takeWhile is_scheme_char s), r.
    rewrite <- E, takeWhile_dropWhile. repeat split; auto using all_takeWhile.
  - intros (c & body & rest & -> & Hc & Hb).
    rewrite Hc. simpl.
    rewrite dropWhile_append_stop; auto.
Qed.

(** *** slugify *)

Lemma class_non_alnum c :
  RegExp.class_mem false (RegExp.nset [("a", "z"); ("0", "9")]%char) c = not_slug_char c.
Proof. each_ascii c. Qed.

Lemma class_hyphen c :
  RegExp.class_mem false (RegExp.lit "-") c = Str.is_char "-" c.
Proof. each_ascii c. Qed.

Lemma slug_char_not_hyphen c : is_slug_char c = true -> Str.is_char "-" c = false.
Proof. each_ascii c; intros H; discriminate H. Qed.


Lemma dropWhile_ext p q s :
  (forall c, p c = q c) -> Str.dropWhile p s = Str.dropWhile q s.
Proof.
  intros E. induction s as [|c s IH]; simpl; [reflexivity|].
  rewrite E, IH. reflexivity.
Qed.

Lemma match_star_nil ic k bol s :
  RegExp.match_seq ic [RegExp.Star k] bol s
  = Some (Str.dropWhile (RegExp.class_mem ic k) s).
Proof.
  revert bol. induction s as [|c s IH]; intros bol.
  - reflexivity.
  - rewrite match_seq_star. simpl Str.dropWhile.
    destruct (RegExp.class_mem ic k c); [rewrite IH|]; reflexivity.
Qed.

Lemma exec_non_alnum bol s :
  RegExp.exec_at re_non_alnum bol s
  = match s with
    | EmptyString => None
    | String c s' =>
        if not_slug_char c then Some (Str.dropWhile not_slug_char s') else None
    end.
Proof.
  unfold RegExp.exec_at, re_non_alnum, RegExp.plus.
  simpl RegExp.alternatives. simpl RegExp.ignoreCase.
  unfold RegExp.match_alts. rewrite match_seq_one.
  destruct s as [|c s]; [reflexivity|].
  rewrite class_non_alnum. destruct (not_slug_char c); [|reflexivity].
  rewrite match_star_nil.
  rewrite (dropWhile_ext _ not_slug_char) by apply class_non_alnum.
  reflexivity.
Qed.

Lemma runs_head p c s :
  exists r rest, runs p (String c s) = (p c, String c r) :: rest.
Proof.
  simpl. destruct (runs p s) as [|[b r] rest]; [eauto|].
  destruct (Bool.eqb b (p c)) eqn:E; [|eauto].
  apply Bool.eqb_prop in E. subst b. eauto.
Qed.

Lemma runs_cons p c s :
  runs p (String c s)
  = match runs p s with
    | (b, r) :: rest =>
        if Bool.eqb b (p c)
        then (b, String c r) :: rest
        else (p c, String c "") :: (b, r) :: rest
    | [] => [(p c, String c "")]
    end.
Proof. reflexivity. Qed.

Lemma hyphenate_keep c s :
  not_slug_char c = false ->
  hyphenate_runs (String c s) = String c (hyphenate_runs s).
Proof.
  intros Hc. unfold hyphenate_runs. rewrite runs_cons.
  destruct s as [|d s]; [simpl; rewrite Hc; reflexivity|].
  destruct (runs_head not_slug_char d s) as (r & rest & E). rewrite E, Hc.
  destruct (not_slug_char d); simpl; rewrite ?Hc; reflexivity.
Qed.

Lemma hyphenate_skip c s :
  not_slug_char c = true ->
  hyphenate_runs (String c s)
  = String "-" (hyphenate_runs (Str.dropWhile not_slug_char s)).
Proof.
  revert c. induction s as [|d s IH]; intros c Hc.
  - unfold hyphenate_runs. simpl. rewrite Hc. reflexivity.
  - simpl Str.dropWhile. destruct (not_slug_char d) eqn:Hd.
    + rewrite <- (IH d Hd). unfold hyphenate_runs. rewrite (runs_cons _ c).
      destruct (runs_head not_slug_char d s) as (r & rest & E).
      rewrite E, Hc, Hd. reflexivity.
    + unfold hyphenate_runs. rewrite (runs_cons _ c).
      destruct (runs_head not_slug_char d s) as (r & rest & E).
      rewrite E, Hc, Hd. reflexivity.
Qed.

Lemma replace_non_alnum_from fuel bol s :
  (String.length s < fuel)%nat ->
  RegExp.replace_from fuel re_non_alnum "-" bol s = hyphenate_runs s.
Proof.
  revert bol s. induction fuel as [|fuel IH]; intros bol s Hlen; [lia|].
  unfold RegExp.replace_from; fold RegExp.replace_from.
  rewrite exec_non_alnum.
  destruct s as [|c s]; [reflexivity|].
  simpl in Hlen.
  destruct (not_slug_char c) eqn:Hc.
  - pose proof (length_dropWhile not_slug_char s) as Hd.
    replace (String.length (Str.dropWhile not_slug_char s) <? String.length (String c s))%nat
      with true by (symmetry; apply Nat.ltb_lt; simpl; lia).
    rewrite IH by lia. rewrite (hyphenate_skip _ _ Hc). reflexivity.
  - rewrite IH by lia. rewrite (hyphenate_keep _ _ Hc). reflexivity.
Qed.

Lemma replace_non_alnum s :
  RegExp.replace re_non_alnum "-" s = hyphenate_runs s.
Proof. unfold RegExp.replace. apply replace_non_alnum_from. lia. Qed.

Lemma exec_edge_hyphen bol s :
  RegExp.exec_at re_edge_hyphen bol s
  = match s with
    | EmptyString => None
    | String c s' =>
        if Str.is_char "-" c
        then if bol then Some s'
             else match s' with
                  | EmptyString => Some EmptyString
                  | String _ _ => None
                  end
        else None
    end.
Proof.
  unfold RegExp.exec_at, re_edge_hyphen.
  simpl RegExp.alternatives. simpl RegExp.ignoreCase.
  unfold RegExp.match_alts.
  rewrite match_seq_bol, !match_seq_one.
  destruct s as [|c s]; [destruct bol; reflexivity|].
  rewrite class_hyphen, match_seq_eol.
  destruct (Str.is_char "-" c), bol, s; reflexivity.
Qed.

Lemma trim_trailing_keep p c s :
  p c = false -> trim_trailing p (String c s) = String c (trim_trailing p s).
Proof. intros H. simpl. destruct (trim_trailing p s); rewrite ?H; reflexivity. Qed.

Lemma trim_trailing_cons_nonempty p c d s :
  p d = false ->
  trim_trailing p (String c (String d s)) = String c (trim_trailing p (String d s)).
Proof.
  intros H. rewrite (trim_trailing_keep p d s H).
  simpl. destruct (trim_trailing p s); rewrite ?H; reflexivity.
Qed.

Lemma replace_edge_tail fuel s :
  (String.length s < fuel)%nat ->
  no_double_hyphen s = true ->
  RegExp.replace_from fuel re_edge_hyphen "" false s
  = trim_trailing (Str.is_char "-") s.
Proof.
  revert s. induction fuel as [|fuel IH]; intros s Hlen Hnd; [lia|].
  unfold RegExp.replace_from; fold RegExp.replace_from.
  rewrite exec_edge_hyphen.
  destruct s as [|c s]; [reflexivity|].
  simpl in Hlen. simpl in Hnd. apply andb_prop in Hnd as [Hcd Hnd].
  destruct (Str.is_char "-" c) eqn:Hc.
  - destruct s as [|d s].
    + simpl. rewrite Hc. destruct fuel; reflexivity.
    + simpl in Hcd. apply negb_true_iff in Hcd.
      rewrite IH by (simpl in *; auto; lia).
      rewrite trim_trailing_cons_nonempty by assumption. reflexivity.
  - rewrite IH by (auto; lia).
    rewrite trim_trailing_keep by assumption. reflexivity.
Qed.

Lemma replace_edge_hyphen s :
  no_double_hyphen s = true ->
  RegExp.replace re_edge_hyphen "" s = trim_hyphens s.
Proof.
  intros Hnd. unfold RegExp.replace, trim_hyphens.
  unfold RegExp.replace_from; fold RegExp.replace_from.
  rewrite exec_edge_hyphen.
  destruct s as [|c s]; [reflexivity|].
  simpl in Hnd. apply andb_prop in Hnd as [Hcd Hnd].
  simpl Str.dropWhile.
  destruct (Str.is_char "-" c) eqn:Hc.
  - replace (String.length s <? String.length (String c s))%nat with true
      by (symmetry; apply Nat.ltb_lt; simpl; lia).
    rewrite replace_edge_tail by (auto; lia).
    destruct s as [|d s]; [reflexivity|].
    simpl in Hcd. apply negb_true_iff in Hcd. simpl Str.dropWhile.
    rewrite Hcd. reflexivity.
  - rewrite replace_edge_tail by (auto; simpl; lia).
    rewrite trim_trailing_keep by assumption. reflexivity.
Qed.

Lemma hyphenate_no_leading_hyphen_after_drop s :
  starts_with_hyphen (hyphenate_runs (Str.dropWhile not_slug_char s)) = false.
Proof.
  induction s as [|c s IH]; [reflexivity|].
  simpl Str.dropWhile. destruct (not_slug_char c) eqn:Hc; [assumption|].
  rewrite hyphenate_keep by assumption. simpl.
  apply slug_char_not_hyphen. unfold not_slug_char in Hc.
  apply negb_false_iff in Hc. assumption.
Qed.

Lemma hyphenate_no_double_len n s :
  (String.length s < n)%nat -> no_double_hyphen (hyphenate_runs s) = true.
Proof.
  revert s. induction n as [|n IH]; intros s Hlen; [lia|].
  destruct s as [|c s]; [reflexivity|]. simpl in Hlen.
  destruct (not_slug_char c) eqn:Hc.
  - rewrite hyphenate_skip by assumption. simpl no_double_hyphen.
    rewrite hyphenate_no_leading_hyphen_after_drop. simpl.
    apply IH. pose proof (length_dropWhile not_slug_char s). lia.
  - rewrite hyphenate_keep by assumption. simpl no_double_hyphen.
    rewrite IH by lia.
    unfold not_slug_char in Hc. apply negb_false_iff in Hc.
    rewrite (slug_char_not_hyphen _ Hc). reflexivity.
Qed.

Lemma hyphenate_no_double s : no_double_hyphen (hyphenate_runs s) = true.
Proof. apply (hyphenate_no_double_len (S (String.length s))). lia. Qed.

(** The code is the composition the specification describes. *)
Lemma slugify_eq_spec toLowerCase text :
  slugify toLowerCase text = slugify_spec toLowerCase text.
Proof.
  unfold slugify, slugify_spec.
  rewrite replace_non_alnum. apply replace_edge_hyphen, hyphenate_no_double.
Qed.

(** [runs] is the decomposition into maximal runs: the runs put together
    give the string back, no run is empty, a run is uniform and tagged with
    the value of [p] on it, and two runs in a row differ in their tag. *)
Lemma runs_maximal p s :
  Str.concat (map snd (runs p s)) = s
  /\ Forall (fun r : bool * string =>
               snd r <> "" /\ Str.all (fun c => Bool.eqb (p c) (fst r)) (snd r) = true)
       (runs p s)
  /\ alternating (runs p s).
Proof.
  induction s as [|c s (IH1 & IH2 & IH3)]; [simpl; auto|].
  rewrite runs_cons. destruct (runs p s) as [|[b r] rest] eqn:E.
  - simpl in IH1. subst s. simpl. repeat split; auto.
    constructor; [|constructor]. simpl. rewrite Bool.eqb_reflx. split; [discriminate|reflexivity].
  - destruct (Bool.eqb b (p c)) eqn:Eb.
    + apply Bool.eqb_prop in Eb. subst b. simpl in *. repeat split.
      * congruence.
      * inversion IH2 as [|x l [Hne Hall] Hrest]; subst. constructor; [|assumption].
        simpl in *. rewrite Bool.eqb_reflx. split; [discriminate|assumption].
      * assumption.
    + simpl in *. repeat split.
      * congruence.
      * constructor; [|assumption]. simpl. rewrite Bool.eqb_reflx.
        split; [discriminate|reflexivity].
      * intros Hpb. rewrite Hpb, Bool.eqb_reflx in Eb. discriminate.
      * assumption.
Qed.

Lemma all_dropWhile p q s : Str.all p s = true -> Str.all p (Str.dropWhile q s) = true.
Proof.
  induction s as [|c s IH]; simpl; [auto|].
  intros H. destruct (q c); [|assumption].
  apply andb_prop in H as [_ H]. auto.
Qed.

Lemma trim_trailing_head p s d r :
  trim_trailing p s = String d r -> exists r', s = String d r'.
Proof.
  destruct s as [|c s]; simpl; [discriminate|].
  destruct (trim_trailing p s); [destruct (p c)|]; intros H; inversion H; eauto.
Qed.

Lemma all_trim_trailing p q s :
  Str.all p s = true -> Str.all p (trim_trailing q s) = true.
Proof.
  induction s as [|c s IH]; simpl; [auto|].
  intros H. apply andb_prop in H as [Hc Hs]. specialize (IH Hs).
  destruct (trim_trailing q s); [destruct (q c)|]; simpl in *; rewrite ?Hc; auto.
Qed.

Lemma starts_trim_trailing p s :
  starts_with_hyphen s = false -> starts_with_hyphen (trim_trailing p s) = false.
Proof.
  destruct s as [|c s]; simpl; [auto|].
  intros H. destruct (trim_trailing p s); [destruct (p c)|]; simpl; auto.
Qed.

Lemma no_double_dropWhile q s :
  no_double_hyphen s = true -> no_double_hyphen (Str.dropWhile q s) = true.
Proof.
  induction s as [|c s IH]; [auto|].
  intros H. simpl Str.dropWhile. destruct (q c); [|assumption].
  simpl in H. apply andb_prop in H as [_ H]. auto.
Qed.

Lemma no_double_trim_trailing q s :
  no_double_hyphen s = true -> no_double_hyphen (trim_trailing q s) = true.
Proof.
  induction s as [|c s IH]; [auto|].
  intros H. simpl in H. apply andb_prop in H as [Hcd Hs]. specialize (IH Hs).
  simpl trim_trailing.
  destruct (trim_trailing q s) as [|d r] eqn:E.
  - destruct (q c); simpl; [reflexivity|].
    rewrite andb_false_r. reflexivity.
  - destruct (trim_trailing_head _ _ _ _ E) as [r' ->].
    simpl in Hcd. simpl. rewrite Hcd. exact IH.
Qed.

Lemma starts_dropWhile_hyphen s :
  starts_with_hyphen (Str.dropWhile (Str.is_char "-") s) = false.
Proof.
  induction s as [|c s IH]; [reflexivity|].
  simpl. destruct (Str.is_char "-" c) eqn:E; [assumption|]. simpl. assumption.
Qed.

Lemma ends_trim_trailing s :
  ends_with_hyphen (trim_trailing (Str.is_char "-") s) = false.
Proof.
  induction s as [|c s IH]; [reflexivity|].
  simpl trim_trailing.
  destruct (trim_trailing (Str.is_char "-") s) as [|d r] eqn:E.
  - destruct (Str.is_char "-" c) eqn:Hc; simpl; auto.
  - simpl in *. assumption.
Qed.

Lemma all_hyphenate_len n s :
  (String.length s < n)%nat -> Str.all is_slug_or_hyphen (hyphenate_runs s) = true.
Proof.
  revert s. induction n as [|n IH]; intros s Hlen; [lia|].
  destruct s as [|c s]; [reflexivity|]. simpl in Hlen.
  destruct (not_slug_char c) eqn:Hc.
  - rewrite hyphenate_skip by assumption. simpl.
    apply IH. pose proof (length_dropWhile not_slug_char s). lia.
  - rewrite hyphenate_keep by assumption. simpl.
    rewrite IH by lia. unfold not_slug_char in Hc. apply negb_false_iff in Hc.
    unfold is_slug_or_hyphen. rewrite Hc. reflexivity.
Qed.

Lemma all_hyphenate s : Str.all is_slug_or_hyphen (hyphenate_runs s) = true.
Proof. apply (all_hyphenate_len (S (String.length s))). lia. Qed.

Lemma slug_or_hyphen_cases c :
  is_slug_or_hyphen c = true ->
  (not_slug_char c = false /\ Str.is_char "-" c = false)
  \/ (not_slug_char c = true /\ Str.is_char "-" c = true).
Proof. each_ascii c; intros H; try discriminate H; auto. Qed.

Lemma slug_or_hyphen_lower c :
  is_slug_or_hyphen c = true -> Str.is_ascii c = true /\ Str.lower c = c.
Proof. each_ascii c; intros H; try discriminate H; auto. Qed.

Lemma hyphenate_fixed s :
  Str.all is_slug_or_hyphen s = true -> no_double_hyphen s = true ->
  hyphenate_runs s = s.
Proof.
  induction s as [|c s IH]; [reflexivity|].
  simpl. intros Hall Hnd.
  apply andb_prop in Hall as [Hc Hall]. apply andb_prop in Hnd as [Hcd Hnd].
  specialize (IH Hall Hnd).
  destruct (slug_or_hyphen_cases c Hc) as [[Hn Hh]|[Hn Hh]].
  - rewrite hyphenate_keep by assumption. congruence.
  - rewrite hyphenate_skip by assumption.
    rewrite Hh in Hcd. simpl in Hcd. apply negb_true_iff in Hcd.
    apply is_char_eq in Hh. subst c.
    destruct s as [|d s]; [reflexivity|].
    simpl in Hcd. simpl in Hall. apply andb_prop in Hall as [Hd _].
    destruct (slug_or_hyphen_cases d Hd) as [[Hdn _]|[_ Hdh]]; [|congruence].
    simpl Str.dropWhile. rewrite Hdn. congruence.
Qed.

Lemma trim_trailing_fixed s :
  ends_with_hyphen s = false -> trim_trailing (Str.is_char "-") s = s.
Proof.
  induction s as [|c s IH]; [reflexivity|].
  intros H. destruct s as [|d s].
  - simpl in *. rewrite H. reflexivity.
  - change (ends_with_hyphen (String d s) = false) in H.
    specialize (IH H).
    change (trim_trailing (Str.is_char "-") (String c (String d s)))
      with (match trim_trailing (Str.is_char "-") (String d s) with
            | EmptyString => if Str.is_char "-" c then EmptyString else String c EmptyString
            | String x r => String c (String x r)
            end).
    rewrite IH. reflexivity.
Qed.

Lemma trim_hyphens_fixed s :
  starts_with_hyphen s = false -> ends_with_hyphen s = false -> trim_hyphens s = s.
Proof.
  intros Hs He. unfold trim_hyphens.
  destruct s as [|c s]; [reflexivity|].
  simpl in Hs. simpl Str.dropWhile. rewrite Hs.
  apply trim_trailing_fixed. assumption.
Qed.

Lemma map_lower_fixed s :
  Str.all is_slug_or_hyphen s = true ->
  Str.all Str.is_ascii s = true /\ Str.map Str.lower s = s.
Proof.
  induction s as [|c s IH]; [auto|].
  simpl. intros H. apply andb_prop in H as [Hc Hs].
  destruct (IH Hs) as [Ha Hm]. destruct (slug_or_hyphen_lower c Hc) as [Hca Hcl].
  rewrite Hca, Ha, Hcl, Hm. auto.
Qed.

Lemma lowercases_ascii_map_lower : lowercases_ascii (Str.map Str.lower).
Proof. intros s _. reflexivity. Qed.

(** C6. [slugify text] lowercases [text], replaces every maximal run of
    characters outside [[a-z0-9]] with one hyphen and trims the leading and
    trailing hyphens; ["Hello, World!"] gives ["hello-world"] and
    ["  --Leading/Trailing--  "] gives ["leading-trailing"]. *)
Theorem slugify_lowercase_hyphenate_trim (toLowerCase : string -> string) :
  lowercases_ascii toLowerCase ->
  (forall text : string,
     slugify toLowerCase text = trim_hyphens (hyphenate_runs (toLowerCase text)))
  /\ slugify toLowerCase "Hello, World!" = "hello-world"
  /\ slugify toLowerCase "  --Leading/Trailing--  " = "leading-trailing".
Proof.
  intros Hlow. split; [exact (slugify_eq_spec toLowerCase)|].
  split; unfold slugify; rewrite Hlow by reflexivity; vm_compute; reflexivity.
Qed.

Lemma slugify_lowercase_hyphenate_trim_witness :
  lowercases_ascii (Str.map Str.lower)
  /\ (forall text : string,
        slugify (Str.map Str.lower) text
        = trim_hyphens (hyphenate_runs (Str.map Str.lower text)))
  /\ slugify (Str.map Str.lower) "Hello, World!" = "hello-world"
  /\ slugify (Str.map Str.lower) "  --Leading/Trailing--  " = "leading-trailing".
Proof.
  split.
  - intros s _. reflexivity.
  - apply (slugify_lowercase_hyphenate_trim (Str.map Str.lower)).
    intros s _. reflexivity.
Defined.

(** C10. The result of [slugify] is canonical: it is made of characters
    of [[a-z0-9-]], has no two hyphens in a row, neither starts nor ends
    with a hyphen, and [slugify] maps it to itself. *)
Theorem slugify_canonical_idempotent (toLowerCase : string -> string) :
  lowercases_ascii toLowerCase ->
  forall text : string,
    Str.all is_slug_or_hyphen (slugify toLowerCase text) = true
    /\ no_double_hyphen (slugify toLowerCase text) = true
    /\ starts_with_hyphen (slugify toLowerCase text) = false
    /\ ends_with_hyphen (slugify toLowerCase text) = false
    /\ slugify toLowerCase (slugify toLowerCase text) = slugify toLowerCase text.
Proof.
  intros Hlow text.
  assert (Hall : Str.all is_slug_or_hyphen (slugify toLowerCase text) = true).
  { rewrite slugify_eq_spec. unfold slugify_spec, trim_hyphens.
    apply all_trim_trailing, all_dropWhile, all_hyphenate. }
  assert (Hnd : no_double_hyphen (slugify toLowerCase text) = true).
  { rewrite slugify_eq_spec. unfold slugify_spec, trim_hyphens.
    apply no_double_trim_trailing, no_double_dropWhile, hyphenate_no_double. }
  assert (Hs : starts_with_hyphen (slugify toLowerCase text) = false).
  { rewrite slugify_eq_spec. unfold slugify_spec, trim_hyphens.
    apply starts_trim_trailing, starts_dropWhile_hyphen. }
  assert (He : ends_with_hyphen (slugify toLowerCase text) = false).
  { rewrite slugify_eq_spec. unfold slugify_spec, trim_hyphens.
    apply ends_trim_trailing. }
  repeat split; try assumption.
  rewrite (slugify_eq_spec toLowerCase (slugify toLowerCase text)).
  unfold slugify_spec.
  destruct (map_lower_fixed _ Hall) as [Hascii Hfix].
  rewrite (Hlow _ Hascii), Hfix.
  rewrite (hyphenate_fixed _ Hall Hnd).
  apply trim_hyphens_fixed; assumption.
Qed.

Lemma slugify_canonical_idempotent_witness :
  lowercases_ascii (Str.map Str.lower)
  /\ Str.all is_slug_or_hyphen (slugify (Str.map Str.lower) "A  b--C_d!") = true
  /\ no_double_hyphen (slugify (Str.map Str.lower) "A  b--C_d!") = true
  /\ starts_with_hyphen (slugify (Str.map Str.lower) "A  b--C_d!") = false
  /\ ends_with_hyphen (slugify (Str.map Str.lower) "A  b--C_d!") = false
  /\ slugify (Str.map Str.lower) (slugify (Str.map Str.lower) "A  b--C_d!")
     = slugify (Str.map Str.lower) "A  b--C_d!".
Proof.
  split.
  - intros s _. reflexivity.
  - apply (slugify_canonical_idempotent (Str.map Str.lower)).
    intros s _. reflexivity.
Defined.

(** *** formatUrlWithQuery *)

Lemma split_unfold sep s :
  Str.split sep s
  = Str.takeWhile (URLSearchParams.not_char sep) s
    :: match Str.dropWhile (URLSearchParams.not_char sep) s with
       | EmptyString => []
       | String _ r => Str.split sep r
       end.
Proof.
  induction s as [|c s IH]; [reflexivity|].
  simpl. unfold URLSearchParams.not_char, Str.is_char.
  destruct (Ascii.eqb c sep); simpl; rewrite IH; reflexivity.
Qed.

Lemma before_not_question s :
  match before "?" s with
  | String c s' => if Str.is_char "?" c then s' else before "?" s
  | EmptyString => before "?" s
  end = before "?" s.
Proof.
  unfold before. destruct s as [|c s]; [reflexivity|]. simpl.
  unfold URLSearchParams.not_char.
  destruct (Str.is_char "?" c) eqn:E; simpl; [reflexivity|].
  rewrite E. reflexivity.
Qed.


(** The query the code starts from, whatever the number of [?] in [url]. *)
Lemma create_search url :
  URLSearchParams.create (nth_error (firstn 2 (Str.split "?" url)) 1)
  = URLSearchParams.parse (existing_query url).
Proof.
  rewrite split_unfold. unfold existing_query, after.
  destruct (Str.dropWhile (URLSearchParams.not_char "?") url) as [|c r].
  - reflexivity.
  - rewrite split_unfold. simpl nth_error. simpl URLSearchParams.tail.
    unfold URLSearchParams.create. fold (before "?" r).
    rewrite before_not_question. reflexivity.
Qed.

Lemma base_of_split url :
  string_of_element (nth_error (firstn 2 (Str.split "?" url)) 0) = before "?" url.
Proof. rewrite split_unfold. reflexivity. Qed.

Lemma formatUrlWithQuery_eq url params :
  formatUrlWithQuery url params
  = before "?" url ++ "?"
    ++ URLSearchParams.toString
         (set_all params (URLSearchParams.parse (existing_query url))).
Proof.
  unfold formatUrlWithQuery. rewrite base_of_split, create_search. reflexivity.
Qed.

Lemma getAll_remove_same name l :
  URLSearchParams.getAll name (URLSearchParams.remove name l) = [].
Proof.
  unfold URLSearchParams.getAll, URLSearchParams.remove.
  induction l as [|e l IH]; [reflexivity|].
  simpl. destruct (String.eqb (fst e) name) eqn:E; simpl; [assumption|].
  rewrite E. assumption.
Qed.

Lemma getAll_remove_other name k l :
  k <> name ->
  URLSearchParams.getAll k (URLSearchParams.remove name l) = URLSearchParams.getAll k l.
Proof.
  intros Hne. unfold URLSearchParams.getAll, URLSearchParams.remove.
  induction l as [|e l IH]; [reflexivity|].
  simpl. destruct (String.eqb (fst e) name) eqn:E; simpl.
  - apply String.eqb_eq in E.
    destruct (String.eqb (fst e) k) eqn:Ek; [apply String.eqb_eq in Ek; congruence|].
    assumption.
  - destruct (String.eqb (fst e) k); simpl; congruence.
Qed.

Lemma getAll_set_same name value l :
  URLSearchParams.getAll name (URLSearchParams.set name value l) = [value].
Proof.
  induction l as [|e l IH]; simpl.
  - unfold URLSearchParams.getAll. simpl. rewrite String.eqb_refl. reflexivity.
  - destruct (String.eqb (fst e) name) eqn:E.
    + unfold URLSearchParams.getAll. simpl. rewrite String.eqb_refl. simpl.
      f_equal. apply getAll_remove_same.
    + unfold URLSearchParams.getAll in *. simpl. rewrite E. assumption.
Qed.

Lemma getAll_set_other name value k l :
  k <> name ->
  URLSearchParams.getAll k (URLSearchParams.set name value l) = URLSearchParams.getAll k l.
Proof.
  intros Hne. induction l as [|e l IH]; simpl.
  - unfold URLSearchParams.getAll. simpl.
    destruct (String.eqb name k) eqn:E; [apply String.eqb_eq in E; congruence|].
    reflexivity.
  - destruct (String.eqb (fst e) name) eqn:E.
    + apply String.eqb_eq in E.
      unfold URLSearchParams.getAll at 1. simpl.
      destruct (String.eqb name k) eqn:Ek; [apply String.eqb_eq in Ek; congruence|].
      fold (URLSearchParams.getAll k (URLSearchParams.remove name l)).
      rewrite getAll_remove_other by assumption.
      unfold URLSearchParams.getAll. simpl. rewrite E, Ek. reflexivity.
    + unfold URLSearchParams.getAll in *. simpl.
      destruct (String.eqb (fst e) k); simpl; congruence.
Qed.

Lemma getAll_set_all_other params k q :
  ~ In k (map fst params) ->
  URLSearchParams.getAll k (set_all params q) = URLSearchParams.getAll k q.
Proof.
  unfold set_all. revert q. induction params as [|[n v] params IH]; intros q Hk.
  - reflexivity.
  - simpl in *. rewrite IH by tauto. apply getAll_set_other. intuition congruence.
Qed.

Lemma getAll_set_all_key params k v q :
  NoDup (map fst params) -> In (k, v) params ->
  URLSearchParams.getAll k (set_all params q) = [v].
Proof.
  unfold set_all. revert q. induction params as [|[n w] params IH]; intros q Hnd Hin.
  - destruct Hin.
  - simpl in *. inversion Hnd as [|x l Hnotin Hnd']; subst.
    destruct Hin as [Heq|Hin].
    + inversion Heq; subst.
      fold (set_all params (URLSearchParams.set k v q)).
      rewrite getAll_set_all_other by assumption. apply getAll_set_same.
    + apply IH; assumption.
Qed.

Lemma before_append_stop c a b :
  has_char c a = false -> before c (a ++ String c b) = a.
Proof.
  unfold has_char, before. intros H. apply negb_false_iff in H.
  induction a as [|x a IH]; simpl.
  - unfold URLSearchParams.not_char, Str.is_char. rewrite Ascii.eqb_refl. reflexivity.
  - simpl in H. apply andb_prop in H as [Hx Ha]. rewrite Hx, IH by assumption. reflexivity.
Qed.

Lemma before_no_char c a : has_char c a = false -> before c a = a.
Proof.
  unfold has_char, before. intros H. apply negb_false_iff in H.
  induction a as [|x a IH]; simpl; [reflexivity|].
  simpl in H. apply andb_prop in H as [Hx Ha]. rewrite Hx, IH by assumption. reflexivity.
Qed.

Lemma after_append_stop c a b :
  has_char c a = false -> after c (a ++ String c b) = b.
Proof.
  unfold has_char, after. intros H. apply negb_false_iff in H.
  rewrite dropWhile_append_stop; [reflexivity|assumption|].
  unfold URLSearchParams.not_char, Str.is_char. rewrite Ascii.eqb_refl. reflexivity.
Qed.

Lemma existing_query_single url :
  has_char "?" (after "?" url) = false -> existing_query url = after "?" url.
Proof. apply before_no_char. Qed.

Lemma dropWhile_head p s d t : Str.dropWhile p s = String d t -> p d = false.
Proof.
  induction s as [|c s IH]; simpl; [discriminate|].
  destruct (p c) eqn:E; [assumption|].
  intros H. inversion H; subst. assumption.
Qed.

Lemma split_at_first c s :
  has_char c s = true -> s = before c s ++ String c (after c s).
Proof.
  unfold has_char, before, after. intros H. apply negb_true_iff in H.
  rewrite <- (takeWhile_dropWhile (URLSearchParams.not_char c) s) at 1. f_equal.
  destruct (Str.dropWhile (URLSearchParams.not_char c) s) as [|d t] eqn:E.
  - rewrite <- (takeWhile_dropWhile (URLSearchParams.not_char c) s), E, append_nil_r in H.
    rewrite all_takeWhile in H. discriminate H.
  - apply dropWhile_head in E. unfold URLSearchParams.not_char in E.
    apply negb_false_iff, is_char_eq in E. subst d. reflexivity.
Qed.

Lemma has_char_after c s : has_char c (after c s) = true -> has_char c s = true.
Proof.
  unfold has_char, after. intros H.
  destruct (Str.dropWhile (URLSearchParams.not_char c) s) as [|d t] eqn:E;
    [discriminate H|].
  apply negb_true_iff. destruct (Str.all (URLSearchParams.not_char c) s) eqn:Ea; [|reflexivity].
  rewrite (dropWhile_all _ _ Ea) in E. discriminate E.
Qed.

(** A URL with a second [?] is a base, a query and a remainder. *)
Lemma two_question_marks url :
  has_char "?" (after "?" url) = true ->
  url = before "?" url ++ "?" ++ existing_query url ++ "?" ++ after "?" (after "?" url).
Proof.
  intros H. unfold existing_query.
  rewrite (split_at_first "?" url (has_char_after _ _ H)) at 1.
  rewrite (split_at_first "?" (after "?" url) H) at 1.
  reflexivity.
Qed.

(** C5. [formatUrlWithQuery] is to split [url] on the first [?] into a
    base path and an existing query string, set the keys of [params] in it
    and leave every other key bound to its original value.  On
    ["/a?b=1?c=2"] with no [params] the code does not: [url.split('?', 2)]
    cuts at every [?] and keeps two pieces, so what follows the second [?]
    is lost; the key [b], bound to ["1?c=2"] by the split on the first
    [?], comes out bound to ["1"], and the result is ["/a?b=1"] where the
    split on the first [?] gives ["/a?b=1%3Fc%3D2"]. *)
Lemma formatUrlWithQuery_not_first_split :
  formatUrlWithQuery "/a?b=1?c=2" [] = "/a?b=1"
  /\ formatUrlWithQuery_spec "/a?b=1?c=2" [] = "/a?b=1%3Fc%3D2"
  /\ URLSearchParams.getAll "b" (URLSearchParams.parse (after "?" "/a?b=1?c=2")) = ["1?c=2"]
  /\ formatUrlWithQuery "/a?b=1?c=2" [] <> formatUrlWithQuery_spec "/a?b=1?c=2" [].
Proof. repeat split; try reflexivity. vm_compute. discriminate. Qed.

(** What the code computes on every [url]: the base path is the text
    before the first [?], the query it starts from is the text between the
    first [?] and the next one (up to the end of [url] without a second
    [?], empty without any); each key of [params] is set in that query,
    every other key of it keeps its values, and the result is
    [base + '?' + serialized query].  For a [url] with at most one [?] this
    is the split on the first [?] of the specification;
    [formatUrlWithQuery "/search?q=a&x=1" {q: "b"}] is ["/search?q=b&x=1"]. *)
Theorem formatUrlWithQuery_sets_params :
  (forall (url : string) (params : list (string * string)),
     NoDup (map fst params) ->
     formatUrlWithQuery url params
     = before "?" url ++ "?"
       ++ URLSearchParams.toString
            (set_all params (URLSearchParams.parse (existing_query url)))
     /\ (forall k v, In (k, v) params ->
           URLSearchParams.getAll k
             (set_all params (URLSearchParams.parse (existing_query url))) = [v])
     /\ (forall k, ~ In k (map fst params) ->
           URLSearchParams.getAll k
             (set_all params (URLSearchParams.parse (existing_query url)))
           = URLSearchParams.getAll k (URLSearchParams.parse (existing_query url)))
     /\ (has_char "?" (after "?" url) = false ->
         formatUrlWithQuery url params = formatUrlWithQuery_spec url params))
  /\ formatUrlWithQuery "/search?q=a&x=1" [("q", "b")] = "/search?q=b&x=1".
Proof.
  split; [|reflexivity].
  intros url params Hnd. repeat split.
  - apply formatUrlWithQuery_eq.
  - intros k v Hin. apply getAll_set_all_key; assumption.
  - intros k Hk. apply getAll_set_all_other; assumption.
  - intros H. rewrite formatUrlWithQuery_eq. unfold formatUrlWithQuery_spec.
    rewrite (existing_query_single _ H). reflexivity.
Qed.

Lemma formatUrlWithQuery_sets_params_witness :
  NoDup (map fst [("q", "b"); ("lang", "en")])
  /\ formatUrlWithQuery "/search?q=a&x=1&q=c" [("q", "b"); ("lang", "en")]
     = "/search?q=b&x=1&lang=en"
  /\ URLSearchParams.getAll "x"
       (set_all [("q", "b"); ("lang", "en")]
          (URLSearchParams.parse (existing_query "/search?q=a&x=1&q=c")))
     = ["1"].
Proof.
  assert (Hnd : NoDup (map fst [("q", "b"); ("lang", "en")])).
  { simpl. repeat constructor; simpl; intuition discriminate. }
  destruct (proj1 formatUrlWithQuery_sets_params
              "/search?q=a&x=1&q=c" [("q", "b"); ("lang", "en")] Hnd)
    as (Heq & _ & Hother & _).
  split; [exact Hnd|]. split.
  - rewrite Heq. reflexivity.
  - rewrite Hother; [reflexivity|]. simpl. intuition discriminate.
Defined.

Lemma has_char_before c s : has_char c (before c s) = false.
Proof.
  unfold has_char, before. rewrite all_takeWhile. reflexivity.
Qed.

Lemma formatUrlWithQuery_second_question_mark base q rest params :
  has_char "?" base = false ->
  has_char "?" q = false ->
  formatUrlWithQuery (base ++ "?" ++ q ++ "?" ++ rest) params
  = base ++ "?" ++ URLSearchParams.toString (set_all params (URLSearchParams.parse q)).
Proof.
  intros Hb Hq. rewrite formatUrlWithQuery_eq. unfold existing_query.
  change (base ++ "?" ++ q ++ "?" ++ rest) with (base ++ String "?" (q ++ String "?" rest)).
  rewrite before_append_stop, after_append_stop, before_append_stop by assumption.
  reflexivity.
Qed.

Lemma formatUrlWithQuery_one_question_mark base q params :
  has_char "?" base = false ->
  has_char "?" q = false ->
  formatUrlWithQuery (base ++ "?" ++ q) params
  = base ++ "?" ++ URLSearchParams.toString (set_all params (URLSearchParams.parse q)).
Proof.
  intros Hb Hq. rewrite formatUrlWithQuery_eq. unfold existing_query.
  change (base ++ "?" ++ q) with (base ++ String "?" q).
  rewrite before_append_stop, after_append_stop, before_no_char by assumption.
  reflexivity.
Qed.

(** C9. When [url] has two question marks or more, what follows the
    second one is dropped: the existing query string is the text strictly
    between the first and the second [?], and the result is the same
    whatever comes after the second [?], the same as without it. *)
Theorem formatUrlWithQuery_drops_after_second_question_mark :
  (forall (base q rest : string) (params : list (string * string)),
     has_char "?" base = false ->
     has_char "?" q = false ->
     formatUrlWithQuery (base ++ "?" ++ q ++ "?" ++ rest) params
     = base ++ "?" ++ URLSearchParams.toString (set_all params (URLSearchParams.parse q))
     /\ formatUrlWithQuery (base ++ "?" ++ q ++ "?" ++ rest) params
        = formatUrlWithQuery (base ++ "?" ++ q) params)
  /\ (forall (url : string) (params : list (string * string)),
        has_char "?" (after "?" url) = true ->
        url = before "?" url ++ "?" ++ existing_query url ++ "?" ++ after "?" (after "?" url)
        /\ formatUrlWithQuery url params
           = formatUrlWithQuery (before "?" url ++ "?" ++ existing_query url) params).
Proof.
  split.
  - intros base q rest params Hb Hq.
    rewrite formatUrlWithQuery_second_question_mark,
      formatUrlWithQuery_one_question_mark by assumption.
    split; reflexivity.
  - intros url params H. split; [apply two_question_marks; assumption|].
    rewrite (two_question_marks url H) at 1.
    rewrite formatUrlWithQuery_second_question_mark,
      formatUrlWithQuery_one_question_mark
      by (unfold existing_query; apply has_char_before).
    reflexivity.
Qed.

Lemma formatUrlWithQuery_drops_after_second_question_mark_witness :
  has_char "?" "/a" = false
  /\ has_char "?" "b=1" = false
  /\ formatUrlWithQuery ("/a" ++ "?" ++ "b=1" ++ "?" ++ "c=2") [("d", "4")]
     = "/a" ++ "?"
       ++ URLSearchParams.toString (set_all [("d", "4")] (URLSearchParams.parse "b=1"))
  /\ formatUrlWithQuery ("/a" ++ "?" ++ "b=1" ++ "?" ++ "c=2") [("d", "4")]
     = formatUrlWithQuery ("/a" ++ "?" ++ "b=1") [("d", "4")].
Proof.
  split; [reflexivity|]. split; [reflexivity|].
  apply (proj1 formatUrlWithQuery_drops_after_second_question_mark
           "/a" "b=1" "c=2" [("d", "4")]);
    reflexivity.
Defined.

(** *** Array.prototype.sort *)

Section SortFacts.

Context {A : Type} (compareFn : A -> A -> Z).

Lemma insert_Permutation x l : Permutation (x :: l) (insert compareFn x l).
Proof.
  induction l as [|y l IH]; simpl; [reflexivity|].
  destruct (compareFn x y <=? 0)%Z; [reflexivity|].
  rewrite perm_swap. constructor. assumption.
Qed.

Lemma sort_Permutation l : Permutation l (sort compareFn l).
Proof.
  induction l as [|x l IH]; simpl; [constructor|].
  rewrite <- insert_Permutation. constructor. assumption.
Qed.

Lemma insert_front x l :
  HdRel (le_by compareFn) x l -> insert compareFn x l = x :: l.
Proof.
  intros H. destruct l as [|y l]; [reflexivity|].
  inversion H as [|? ? Hxy]; subst. simpl.
  apply Z.leb_le in Hxy. rewrite Hxy. reflexivity.
Qed.

(** Sorting a list whose neighbours are already in order changes nothing. *)
Lemma sort_Sorted_id l : Sorted (le_by compareFn) l -> sort compareFn l = l.
Proof.
  induction 1 as [|x l Hs IH Hhd]; [reflexivity|].
  simpl. rewrite IH. apply insert_front. assumption.
Qed.

(** A class of elements that the comparator never puts the wrong way
    round keeps its order. *)
Lemma insert_filter (P : A -> bool) x l :
  (P x = true -> forall y, In y l -> P y = true -> (compareFn x y <= 0)%Z) ->
  filter P (insert compareFn x l) = filter P (x :: l).
Proof.
  induction l as [|y l IH]; intros H; [reflexivity|].
  simpl. destruct (compareFn x y <=? 0)%Z eqn:E; [reflexivity|].
  simpl. rewrite IH by (intros Hx z Hz; apply H; simpl; auto).
  simpl. destruct (P x) eqn:Px; [|reflexivity].
  destruct (P y) eqn:Py; [|reflexivity].
  apply Z.leb_gt in E. specialize (H eq_refl y (or_introl eq_refl) Py). lia.
Qed.

Lemma sort_filter (P : A -> bool) l :
  (forall x y, P x = true -> P y = true -> (compareFn x y <= 0)%Z) ->
  filter P (sort compareFn l) = filter P l.
Proof.
  intros H. induction l as [|x l IH]; [reflexivity|].
  simpl sort. rewrite insert_filter by (intros Hx y _ Hy; apply H; assumption).
  simpl. rewrite IH. reflexivity.
Qed.

Hypothesis compareFn_consistent : consistent compareFn.

Lemma compare_gt_le a b : (0 < compareFn a b)%Z -> (compareFn b a <= 0)%Z.
Proof.
  intros H. pose proof (compare_antisym _ compareFn_consistent a b) as Ha.
  rewrite (Z.sgn_pos _ H) in Ha.
  destruct (Z.sgn_spec (compareFn b a)) as [[? E]|[[? E]|[? E]]]; lia.
Qed.

Lemma compare_eq_sym a b : compareFn a b = 0%Z -> compareFn b a = 0%Z.
Proof.
  intros H. pose proof (compare_antisym _ compareFn_consistent b a) as Ha.
  rewrite H in Ha. simpl in Ha. apply Z.sgn_null_iff. assumption.
Qed.

Lemma insert_StronglySorted x l :
  StronglySorted (le_by compareFn) l -> StronglySorted (le_by compareFn) (insert compareFn x l).
Proof.
  induction 1 as [|y l Hs IH Hall]; simpl.
  - repeat constructor.
  - destruct (compareFn x y <=? 0)%Z eqn:E.
    + apply Z.leb_le in E. constructor; [constructor; assumption|].
      constructor; [assumption|].
      eapply Forall_impl; [|exact Hall].
      intros z Hyz. exact (compare_trans _ compareFn_consistent x y z E Hyz).
    + apply Z.leb_gt in E. constructor; [assumption|].
      apply (Permutation_Forall (insert_Permutation x l)).
      constructor; [apply compare_gt_le; assumption | assumption].
Qed.

Lemma sort_StronglySorted l : StronglySorted (le_by compareFn) (sort compareFn l).
Proof.
  induction l as [|x l IH]; simpl; [constructor|].
  apply insert_StronglySorted. assumption.
Qed.

(** Stability: the elements the comparator deems equal to [a] keep their
    order. *)
Lemma sort_stable a l :
  filter (fun x => (compareFn a x =? 0)%Z) (sort compareFn l)
  = filter (fun x => (compareFn a x =? 0)%Z) l.
Proof.
  apply sort_filter. intros x y Hx Hy.
  apply Z.eqb_eq in Hx, Hy.
  apply (compare_trans _ compareFn_consistent x a y).
  - rewrite (compare_eq_sym _ _ Hx). lia.
  - lia.
Qed.

Lemma sort_idempotent l : sort compareFn (sort compareFn l) = sort compareFn l.
Proof.
  apply sort_Sorted_id, StronglySorted_Sorted, sort_StronglySorted.
Qed.

Lemma compare_refl a : compareFn a a = 0%Z.
Proof.
  pose proof (compare_antisym _ compareFn_consistent a a) as H.
  apply Z.sgn_null_iff. lia.
Qed.

Lemma compare_le_le_eq a b :
  (compareFn a b <= 0)%Z -> (compareFn b a <= 0)%Z -> compareFn a b = 0%Z.
Proof.
  intros Hab Hba. pose proof (compare_antisym _ compareFn_consistent a b) as H.
  apply Z.sgn_null_iff.
  assert (Z.sgn (compareFn a b) <= 0)%Z by (apply Z.sgn_nonpos; assumption).
  assert (Z.sgn (compareFn b a) <= 0)%Z by (apply Z.sgn_nonpos; assumption).
  lia.
Qed.

(** The result of a stable sort is determined: two sorted rearrangements
    of a list that keep every class of equal elements in the same order are
    the same list.  So [sort] is what any conforming engine returns. *)
Lemma stable_sorted_unique l1 l2 :
  Permutation l1 l2 ->
  StronglySorted (le_by compareFn) l1 -> StronglySorted (le_by compareFn) l2 ->
  (forall a, filter (fun x => (compareFn a x =? 0)%Z) l1
             = filter (fun x => (compareFn a x =? 0)%Z) l2) ->
  l1 = l2.
Proof.
  revert l2. induction l1 as [|x t1 IH]; intros l2 Hperm Hs1 Hs2 Hst.
  - apply Permutation_nil in Hperm. congruence.
  - destruct l2 as [|y t2];
      [apply Permutation_sym, Permutation_nil in Hperm; discriminate|].
    inversion Hs1 as [|? ? Hs1' Hall1]; subst.
    inversion Hs2 as [|? ? Hs2' Hall2]; subst.
    assert (Hxy : compareFn x y = 0%Z).
    { assert (Hle1 : (compareFn x y <= 0)%Z).
      { assert (Hin : In y (x :: t1))
          by (apply (Permutation_in _ (Permutation_sym Hperm)); left; reflexivity).
        destruct Hin as [->|Hin]; [rewrite compare_refl; lia|].
        rewrite Forall_forall in Hall1. apply Hall1. assumption. }
      assert (Hle2 : (compareFn y x <= 0)%Z).
      { assert (Hin : In x (y :: t2)) by (apply (Permutation_in _ Hperm); left; reflexivity).
        destruct Hin as [->|Hin]; [rewrite compare_refl; lia|].
        rewrite Forall_forall in Hall2. apply Hall2. assumption. }
      apply compare_le_le_eq; assumption. }
    assert (x = y).
    { specialize (Hst x). simpl in Hst.
      rewrite compare_refl, Hxy in Hst. simpl in Hst. congruence. }
    subst y. f_equal. apply IH; try assumption.
    + apply Permutation_cons_inv in Hperm. assumption.
    + intros a. specialize (Hst a). simpl in Hst.
      destruct (compareFn a x =? 0)%Z; congruence.
Qed.

Lemma sort_unique l l' :
  Permutation l l' ->
  StronglySorted (le_by compareFn) l' ->
  (forall a, filter (fun x => (compareFn a x =? 0)%Z) l'
             = filter (fun x => (compareFn a x =? 0)%Z) l) ->
  l' = sort compareFn l.
Proof.
  intros Hperm Hs Hst. apply stable_sorted_unique; try assumption.
  - rewrite <- Hperm. apply sort_Permutation.
  - apply sort_StronglySorted.
  - intros a. rewrite sort_stable. apply Hst.
Qed.

End SortFacts.

(** *** The loader *)

Lemma bufferIterable_loadProjects fakes : bufferIterable (loadProjects fakes) = fakes.
Proof. induction fakes as [|p fakes IH]; simpl; congruence. Qed.

Lemma trace_loadProjects fakes :
  trace (loadProjects fakes) = flat_map (fun p => [Suspended; Produced p]) fakes.
Proof. induction fakes as [|p fakes IH]; simpl; congruence. Qed.

(** *** The two orders *)

Lemma byArchivedThenName_consistent localeCompare :
  consistent localeCompare -> consistent (byArchivedThenName localeCompare).
Proof.
  intros [Hanti Htrans]. split.
  - intros a b. unfold byArchivedThenName.
    destruct (archived a), (archived b); simpl; auto.
  - intros a b c. unfold byArchivedThenName.
    destruct (archived a), (archived b), (archived c); simpl; try lia; apply Htrans.
Qed.

Lemma byArchivedThenName_same localeCompare a b :
  archived a = archived b ->
  byArchivedThenName localeCompare a b = localeCompare (name a) (name b).
Proof.
  intros H. unfold byArchivedThenName. rewrite H, Bool.eqb_reflx. reflexivity.
Qed.

Lemma Sorted_app {A : Type} (R : A -> A -> Prop) (l1 l2 : list A) :
  Sorted R l1 -> Sorted R l2 ->
  (forall x y, In x l1 -> In y l2 -> R x y) ->
  Sorted R (l1 ++ l2)%list.
Proof.
  induction 1 as [|x l1 Hs IH Hhd]; intros H2 Hcross; [assumption|].
  simpl. constructor.
  - apply IH; [assumption|]. intros a b Ha Hb. apply Hcross; simpl; auto.
  - destruct l1 as [|y l1]; simpl.
    + destruct l2 as [|z l2]; constructor. apply Hcross; simpl; auto.
    + inversion Hhd; subst. constructor. assumption.
Qed.

Lemma Sorted_same_flag localeCompare (flag : bool) l :
  Forall (fun p => archived p = flag) l ->
  StronglySorted (le_by (byArchivedThenName localeCompare)) l ->
  Sorted (name_le localeCompare) l.
Proof.
  intros Hall Hs. apply StronglySorted_Sorted in Hs.
  induction Hs as [|x l Hs IH Hhd]; [constructor|].
  inversion Hall as [|? ? Hx Hl]; subst. constructor; [auto|].
  destruct Hhd as [|y l Hxy]; constructor.
  inversion Hl; subst. unfold le_by in Hxy.
  rewrite byArchivedThenName_same in Hxy by congruence. assumption.
Qed.

Lemma grid_ordered_of_sorted localeCompare l :
  StronglySorted (le_by (byArchivedThenName localeCompare)) l ->
  grid_ordered localeCompare l.
Proof.
  induction 1 as [|x l Hs IH Hall].
  - exists [], []. repeat split; constructor.
  - destruct IH as (active & retired & -> & Hact & Hret & Hsa & Hsr).
    destruct (archived x) eqn:Hx.
    + assert (active = []) as ->.
      { destruct active as [|y active]; [reflexivity|].
        inversion Hall as [|? ? Hxy _]; subst. inversion Hact as [|? ? Hy _]; subst.
        unfold le_by, byArchivedThenName in Hxy. rewrite Hx, Hy in Hxy.
        simpl in Hxy. lia. }
      exists [], (x :: retired). simpl in *.
      split; [reflexivity|]. split; [constructor|]. split; [constructor; assumption|].
      split; [constructor|].
      apply (Sorted_same_flag localeCompare true); constructor; assumption.
    + exists (x :: active), retired. repeat split; auto.
      destruct active as [|y active]; [repeat constructor|].
      constructor; [assumption|]. constructor.
      inversion Hall as [|? ? Hxy _]; subst. inversion Hact as [|? ? Hy _]; subst.
      unfold le_by in Hxy. rewrite byArchivedThenName_same in Hxy by congruence.
      assumption.
Qed.

Lemma sorted_of_grid_ordered localeCompare l :
  grid_ordered localeCompare l ->
  Sorted (le_by (byArchivedThenName localeCompare)) l.
Proof.
  intros (active & retired & -> & Hact & Hret & Hsa & Hsr).
  assert (Hsame : forall (flag : bool) l,
             Forall (fun p => archived p = flag) l ->
             Sorted (name_le localeCompare) l ->
             Sorted (le_by (byArchivedThenName localeCompare)) l).
  { intros flag l Hall Hs. induction Hs as [|x l Hs IH Hhd]; [constructor|].
    inversion Hall as [|? ? Hx Hl]; subst. constructor; [auto|].
    destruct Hhd as [|y l Hxy]; constructor.
    inversion Hl; subst. unfold le_by.
    rewrite byArchivedThenName_same by congruence. assumption. }
  apply Sorted_app; [apply (Hsame false) | apply (Hsame true) |]; try assumption.
  intros x y Hx Hy.
  rewrite Forall_forall in Hact, Hret.
  unfold le_by, byArchivedThenName. rewrite (Hact x Hx), (Hret y Hy). simpl. lia.
Qed.

Lemma compareCodeUnits_consistent : consistent compareCodeUnits.
Proof.
  assert (Hcmp_trans : forall a b c,
             String.compare a b <> Gt -> String.compare b c <> Gt ->
             String.compare a c <> Gt).
  { induction a as [|x a IH]; intros [|y b] [|z c]; simpl; try congruence.
    unfold Ascii.compare.
    destruct (N.compare_spec (N_of_ascii x) (N_of_ascii y)) as [Exy|Lxy|Gxy];
      destruct (N.compare_spec (N_of_ascii y) (N_of_ascii z)) as [Eyz|Lyz|Gyz];
      try congruence; intros H1 H2.
    - rewrite Exy, Eyz, N.compare_refl. eapply IH; eassumption.
    - rewrite Exy. apply N.compare_lt_iff in Lyz. rewrite Lyz. discriminate.
    - rewrite <- Eyz. apply N.compare_lt_iff in Lxy. rewrite Lxy. discriminate.
    - assert (L : (N_of_ascii x < N_of_ascii z)%N) by lia.
      apply N.compare_lt_iff in L. rewrite L. discriminate. }
  split.
  - intros a b. unfold compareCodeUnits. rewrite (String.compare_antisym a b).
    destruct (String.compare b a); reflexivity.
  - intros a b c. unfold compareCodeUnits. specialize (Hcmp_trans a b c).
    destruct (String.compare a b), (String.compare b c), (String.compare a c);
      intros; try lia; exfalso; apply Hcmp_trans; congruence.
Qed.

Lemma byStarsDescending_consistent : consistent byStarsDescending.
Proof. split; unfold byStarsDescending; intros; lia. Qed.

Lemma StronglySorted_impl {A : Type} (R S : A -> A -> Prop) (l : list A) :
  (forall a b, R a b -> S a b) -> StronglySorted R l -> StronglySorted S l.
Proof.
  intros H. induction 1 as [|x l Hs IH Hall]; constructor; [assumption|].
  eapply Forall_impl; [|exact Hall]. auto.
Qed.


Lemma advance_loadProjects n fakes :
  Nat.iter n advance (loadProjects fakes) = loadProjects (skipn n fakes).
Proof.
  revert fakes. induction n as [|n IH]; intros fakes; [reflexivity|].
  rewrite Nat.iter_succ_r.
  destruct fakes as [|p fakes].
  - simpl skipn. specialize (IH []). destruct n; simpl in IH; exact IH.
  - simpl skipn. apply IH.
Qed.

(** C4. [loadProjects()] is a finite lazy sequence of exactly the records
    of the fixture list, in its order and with none left out; a timer is
    awaited before each record; a generator that has been read does not
    start again, and a new call gives the whole list again. *)
Theorem loadProjects_yields_fixture (fakes : list Project) :
  trace (loadProjects fakes) = flat_map (fun p => [Suspended; Produced p]) fakes
  /\ next (loadProjects []) = (O, None)
  /\ (forall p rest,
        next (loadProjects (p :: rest)) = (1%nat, Some (p, loadProjects rest)))
  /\ (forall n, bufferIterable (Nat.iter n advance (loadProjects fakes)) = skipn n fakes)
  /\ bufferIterable (loadProjects fakes) = fakes.
Proof.
  split; [apply trace_loadProjects|]. split; [reflexivity|].
  split; [reflexivity|]. split.
  - intros n. rewrite advance_loadProjects. apply bufferIterable_loadProjects.
  - apply bufferIterable_loadProjects.
Qed.

(** C1. The sort of the showcase grid puts every project that is not
    archived before every archived one and orders each of the two parts
    alphabetically by name; the data source [B, A (archived), C] comes out
    as [B, C, A]. *)
Theorem grid_sort_archived_last_alphabetical (localeCompare : string -> string -> Z) :
  consistent localeCompare ->
  (localeCompare "B" "C" <= 0)%Z ->
  (forall L : list Project,
     Permutation L (sort (byArchivedThenName localeCompare) L)
     /\ grid_ordered localeCompare (sort (byArchivedThenName localeCompare) L)
     /\ StronglySorted (le_by (byArchivedThenName localeCompare))
          (sort (byArchivedThenName localeCompare) L))
  /\ (forall fakes : list Project,
        getStaticProps_grid localeCompare fakes
        = sort (byArchivedThenName localeCompare) (map deleteUndefinedProject fakes))
  /\ getStaticProps_grid localeCompare [example_B; example_A; example_C]
     = [example_B; example_C; example_A].
Proof.
  intros Hc HBC. pose proof (byArchivedThenName_consistent _ Hc) as Hc'.
  split; [|split].
  - intros L. split; [apply sort_Permutation|].
    split; [apply grid_ordered_of_sorted|]; apply sort_StronglySorted; assumption.
  - intros fakes. unfold getStaticProps_grid.
    rewrite bufferIterable_loadProjects. reflexivity.
  - unfold getStaticProps_grid. rewrite bufferIterable_loadProjects.
    apply Z.leb_le in HBC. simpl. unfold byArchivedThenName at 1. simpl.
    rewrite HBC. reflexivity.
Qed.

Lemma grid_sort_archived_last_alphabetical_witness :
  consistent compareCodeUnits
  /\ (compareCodeUnits "B" "C" <= 0)%Z
  /\ getStaticProps_grid compareCodeUnits [example_B; example_A; example_C]
     = [example_B; example_C; example_A].
Proof.
  split; [exact compareCodeUnits_consistent|].
  split; [vm_compute; discriminate|].
  apply (grid_sort_archived_last_alphabetical compareCodeUnits).
  - exact compareCodeUnits_consistent.
  - vm_compute. discriminate.
Defined.

(** C2. The sort of the ranked list orders the records by descending
    [stars] and is stable: the records with a given number of stars come
    out in the order they came in. *)
Theorem ranked_sort_descending_stable :
  (forall L : list Project,
     Permutation L (sort byStarsDescending L)
     /\ StronglySorted (fun a b => (stars b <= stars a)%Z) (sort byStarsDescending L)
     /\ (forall n : Z,
           filter (fun p => (stars p =? n)%Z) (sort byStarsDescending L)
           = filter (fun p => (stars p =? n)%Z) L))
  /\ getStaticProps_ranked [example_B; example_A; example_C]
     = [example_A; example_C; example_B].
Proof.
  split; [|reflexivity].
  intros L. split; [apply sort_Permutation|]. split.
  - apply (StronglySorted_impl (le_by byStarsDescending)).
    + unfold le_by, byStarsDescending. intros; lia.
    + apply sort_StronglySorted, byStarsDescending_consistent.
  - intros n. apply sort_filter. intros x y Hx Hy.
    apply Z.eqb_eq in Hx, Hy. unfold byStarsDescending. lia.
Qed.

(** C8. The sort of the showcase grid is idempotent: a list that is
    already in the order of the grid is returned as it is, and sorting
    twice is sorting once. *)
Theorem grid_sort_idempotent (localeCompare : string -> string -> Z) :
  (forall L : list Project,
     grid_ordered localeCompare L ->
     sort (byArchivedThenName localeCompare) L = L)
  /\ (consistent localeCompare ->
      forall L : list Project,
        sort (byArchivedThenName localeCompare)
          (sort (byArchivedThenName localeCompare) L)
        = sort (byArchivedThenName localeCompare) L).
Proof.
  split.
  - intros L HL. apply sort_Sorted_id, sorted_of_grid_ordered. assumption.
  - intros Hc L. apply sort_idempotent, byArchivedThenName_consistent. assumption.
Qed.

Lemma grid_sort_idempotent_witness :
  grid_ordered compareCodeUnits [example_B; example_C; example_A]
  /\ sort (byArchivedThenName compareCodeUnits) [example_B; example_C; example_A]
     = [example_B; example_C; example_A].
Proof.
  assert (H : grid_ordered compareCodeUnits [example_B; example_C; example_A]).
  { exists [example_B; example_C], [example_A].
    split; [reflexivity|]. split; [repeat constructor|]. split; [repeat constructor|].
    split; repeat constructor. unfold name_le. vm_compute. discriminate. }
  split; [exact H|].
  exact (proj1 (grid_sort_idempotent compareCodeUnits) _ H).
Defined.

(** *** deleteUndefined *)

Lemma size_of_lookup (o : gmap string Val) k x :
  o !! k = Some x -> (size_of x < size_of (VObj o))%nat.
Proof.
  intros H. simpl.
  rewrite (map_fold_delete_L _ _ k x o); [lia| |assumption].
  intros; lia.
Qed.

Lemma deleteUndefinedObj_lookup (o : gmap string Val) k :
  deleteUndefinedObj o !! k
  = match o !! k with
    | Some v => if is_undefined v then None else Some (deleteUndefinedVal v)
    | None => None
    end.
Proof.
  unfold deleteUndefinedObj. rewrite lookup_omap.
  destruct (o !! k); reflexivity.
Qed.

Lemma deleteUndefinedVal_obj (o : gmap string Val) :
  deleteUndefinedVal (VObj o) = VObj (deleteUndefinedObj o).
Proof. reflexivity. Qed.

Lemma deleteUndefinedVal_primitive v :
  is_primitive v = true -> deleteUndefinedVal v = v.
Proof. destruct v; simpl; intros H; try reflexivity; discriminate H. Qed.

Lemma no_undefined_deleteUndefinedVal_size n v :
  (size_of v < n)%nat -> is_undefined v = false -> no_undefined (deleteUndefinedVal v).
Proof.
  revert v. induction n as [|n IH]; intros v Hn Hv; [lia|].
  destruct v as [| |b|z|s|o]; try (constructor; fail); [discriminate Hv|].
  rewrite deleteUndefinedVal_obj. constructor. intros k x Hk.
  rewrite deleteUndefinedObj_lookup in Hk.
  destruct (o !! k) as [v|] eqn:Hok; [|discriminate Hk].
  destruct (is_undefined v) eqn:Hu; [discriminate Hk|].
  inversion Hk; subst. apply IH; [|assumption].
  pose proof (size_of_lookup o k v Hok). lia.
Qed.

Lemma no_undefined_deleteUndefinedObj (o : gmap string Val) :
  no_undefined (VObj (deleteUndefinedObj o)).
Proof.
  rewrite <- deleteUndefinedVal_obj.
  apply (no_undefined_deleteUndefinedVal_size (S (size_of (VObj o)))); [lia|reflexivity].
Qed.

Lemma is_undefined_eq v : is_undefined v = true <-> v = VUndefined.
Proof. destruct v; simpl; split; intros H; try reflexivity; discriminate H. Qed.

Lemma bind_optional_strip key x (o : gmap string Val) :
  o !! key = None ->
  deleteUndefinedObj (bind_optional key x o)
  = bind_optional key (strip_undefined x) (deleteUndefinedObj o).
Proof.
  intros Hk. unfold deleteUndefinedObj. destruct x as [| |s]; simpl.
  - reflexivity.
  - rewrite omap_insert_None by reflexivity.
    apply delete_id. rewrite lookup_omap, Hk. reflexivity.
  - apply omap_insert_Some. reflexivity.
Qed.

Lemma deleteUndefinedObj_insert key v (o : gmap string Val) :
  is_primitive v = true ->
  deleteUndefinedObj (<[key := v]> o) = <[key := v]> (deleteUndefinedObj o).
Proof.
  intros Hv. unfold deleteUndefinedObj. apply omap_insert_Some.
  destruct v; try reflexivity; discriminate Hv.
Qed.

Lemma bind_optional_lookup_ne key x (o : gmap string Val) k :
  k <> key -> bind_optional key x o !! k = o !! k.
Proof.
  intros H. destruct x; simpl; [reflexivity| |]; apply lookup_insert_ne; congruence.
Qed.

(** On a [Project] the generic cleaning is the typed one. *)
Lemma deleteUndefinedObj_toObj p :
  deleteUndefinedObj (toObj p) = toObj (deleteUndefinedProject p).
Proof.
  unfold toObj.
  rewrite !bind_optional_strip.
  - rewrite !deleteUndefinedObj_insert by reflexivity.
    unfold deleteUndefinedObj. rewrite omap_empty. reflexivity.
  - rewrite !lookup_insert_ne by discriminate. apply lookup_empty.
  - rewrite bind_optional_lookup_ne by discriminate.
    rewrite !lookup_insert_ne by discriminate. apply lookup_empty.
  - rewrite !bind_optional_lookup_ne by discriminate.
    rewrite !lookup_insert_ne by discriminate. apply lookup_empty.
Qed.

Lemma deleteUndefinedVal_idempotent_size n v :
  (size_of v < n)%nat ->
  deleteUndefinedVal (deleteUndefinedVal v) = deleteUndefinedVal v.
Proof.
  revert v. induction n as [|n IH]; intros v Hn; [lia|].
  destruct v as [| |b|z|s|o]; try reflexivity.
  rewrite !deleteUndefinedVal_obj. f_equal.
  apply map_eq. intros k. rewrite !deleteUndefinedObj_lookup.
  destruct (o !! k) as [v|] eqn:Hok; [|reflexivity].
  destruct (is_undefined v) eqn:Hu; [reflexivity|].
  pose proof (size_of_lookup o k v Hok) as Hsz.
  rewrite IH by lia.
  destruct v; try reflexivity. discriminate Hu.
Qed.

Lemma deleteUndefinedObj_idempotent (o : gmap string Val) :
  deleteUndefinedObj (deleteUndefinedObj o) = deleteUndefinedObj o.
Proof.
  pose proof (deleteUndefinedVal_idempotent_size (S (size_of (VObj o))) (VObj o)) as H.
  rewrite !deleteUndefinedVal_obj in H. specialize (H (Nat.lt_succ_diag_r _)).
  congruence.
Qed.

(** The store outside the array is not touched. *)
Lemma deleteUndefined_frame L (store : gmap nat (gmap string Val)) a :
  ~ In a L -> deleteUndefined L store !! a = store !! a.
Proof.
  unfold deleteUndefined. revert store.
  induction L as [|b L IH]; intros store Ha; [reflexivity|].
  simpl in *. rewrite IH by tauto. apply lookup_alter_ne. intuition congruence.
Qed.

(** A record of the array is cleaned, however often the array holds it. *)
Lemma deleteUndefined_lookup L (store : gmap nat (gmap string Val)) a :
  In a L -> deleteUndefined L store !! a = deleteUndefinedObj <$> store !! a.
Proof.
  unfold deleteUndefined. revert store.
  induction L as [|b L IH]; intros store Ha; [destruct Ha|].
  simpl. destruct (in_dec Nat.eq_dec a L) as [Hin|Hnotin].
  - rewrite IH by assumption.
    destruct (Nat.eq_dec b a) as [->|Hne].
    + rewrite lookup_alter_eq. destruct (store !! a); simpl; [|reflexivity].
      rewrite deleteUndefinedObj_idempotent. reflexivity.
    + rewrite lookup_alter_ne by assumption. reflexivity.
  - destruct Ha as [->|Ha]; [|contradiction].
    fold (deleteUndefined L (alter deleteUndefinedObj a store)).
    rewrite deleteUndefined_frame by assumption. apply lookup_alter_eq.
Qed.

(** C3. [deleteUndefined(L)] works in place: the array keeps its records,
    each record of the array is updated where it lives (so through every
    reference to it) and the rest of the store is left alone.  Afterwards
    no record of the array has a key bound to [undefined], at any depth;
    every key that was bound to a defined value is still there with the
    same value, the falsy [0], [false] and [""] included; no key is added.
    On a [Project] this is the removal of the optional properties that
    were bound to [undefined]. *)
Theorem deleteUndefined_removes_only_undefined
  (L : list nat) (store : gmap nat (gmap string Val)) :
  (forall a, ~ In a L -> deleteUndefined L store !! a = store !! a)
  /\ (forall a, is_Some (deleteUndefined L store !! a) <-> is_Some (store !! a))
  /\ (forall a r,
        In a L -> store !! a = Some r ->
        exists r',
          deleteUndefined L store !! a = Some r'
          /\ (forall k, r' !! k <> Some VUndefined)
          /\ no_undefined (VObj r')
          /\ (forall k v, r !! k = Some v -> is_primitive v = true -> r' !! k = Some v)
          /\ (forall k v, r !! k = Some v -> v <> VUndefined ->
                r' !! k = Some (deleteUndefinedVal v))
          /\ (forall k, is_Some (r' !! k) -> is_Some (r !! k))
          /\ (forall k, r !! k = Some (VNum 0) -> r' !! k = Some (VNum 0))
          /\ (forall k, r !! k = Some (VBool false) -> r' !! k = Some (VBool false))
          /\ (forall k, r !! k = Some (VStr "") -> r' !! k = Some (VStr "")))
  /\ (forall p : Project, deleteUndefinedObj (toObj p) = toObj (deleteUndefinedProject p)).
Proof.
  split; [intros a Ha; apply deleteUndefined_frame; assumption|].
  split.
  { intros a. destruct (in_dec Nat.eq_dec a L) as [Hin|Hnotin].
    - rewrite deleteUndefined_lookup by assumption. apply fmap_is_Some.
    - rewrite deleteUndefined_frame by assumption. reflexivity. }
  split; [|exact deleteUndefinedObj_toObj].
  intros a r Ha Hr. exists (deleteUndefinedObj r).
  assert (Hprim : forall k v, r !! k = Some v -> is_primitive v = true ->
                              deleteUndefinedObj r !! k = Some v).
  { intros k v Hk Hp. rewrite deleteUndefinedObj_lookup, Hk.
    rewrite (deleteUndefinedVal_primitive _ Hp).
    destruct v; try reflexivity; discriminate Hp. }
  split; [rewrite deleteUndefined_lookup, Hr by assumption; reflexivity|].
  split.
  { intros k Hk. rewrite deleteUndefinedObj_lookup in Hk.
    destruct (r !! k) as [v|]; [|discriminate Hk].
    destruct v; simpl in Hk; discriminate Hk. }
  split; [apply no_undefined_deleteUndefinedObj|].
  split; [exact Hprim|]. split.
  { intros k v Hk Hv. rewrite deleteUndefinedObj_lookup, Hk.
    destruct (is_undefined v) eqn:E; [apply is_undefined_eq in E; contradiction|reflexivity]. }
  split.
  { intros k [x Hx]. rewrite deleteUndefinedObj_lookup in Hx.
    destruct (r !! k); [eauto|discriminate Hx]. }
  repeat split; intros k Hk; apply Hprim; auto.
Qed.

Lemma deleteUndefined_removes_only_undefined_witness :
  In 7%nat [7%nat; 7%nat]
  /\ ({[ 7%nat := toObj example_record ]} : gmap nat (gmap string Val)) !! 7%nat
     = Some (toObj example_record)
  /\ exists r',
       deleteUndefined [7%nat; 7%nat] {[ 7%nat := toObj example_record ]} !! 7%nat = Some r'
       /\ (forall k, r' !! k <> Some VUndefined)
       /\ r' !! "stars" = Some (VNum 0)
       /\ r' !! "archived" = Some (VBool false)
       /\ r' !! "language" = Some (VStr "").
Proof.
  split; [left; reflexivity|]. split; [apply lookup_singleton_eq|].
  destruct (proj1 (proj2 (proj2 (deleteUndefined_removes_only_undefined
              [7%nat; 7%nat] {[ 7%nat := toObj example_record ]})))
              7%nat (toObj example_record) (or_introl eq_refl) (lookup_singleton_eq _ _))
    as (r' & Hr & Hnone & _ & _ & _ & _ & H0 & Hfalse & Hempty).
  exists r'. split; [exact Hr|]. split; [exact Hnone|].
  split; [apply H0; reflexivity|]. split; [apply Hfalse; reflexivity|].
  apply Hempty; reflexivity.
Defined.

(** * Further properties *)

(** *** The serializer and the parser of URLSearchParams *)

Lemma map_append f a b : Str.map f (a ++ b) = Str.map f a ++ Str.map f b.
Proof. induction a as [|c a IH]; simpl; congruence. Qed.

Lemma all_app p a b : Str.all p (a ++ b) = (Str.all p a && Str.all p b)%bool.
Proof.
  induction a as [|c a IH]; simpl; [reflexivity|].
  rewrite IH. apply andb_assoc.
Qed.

Lemma all_impl (p q : ascii -> bool) s :
  (forall c, p c = true -> q c = true) -> Str.all p s = true -> Str.all q s = true.
Proof.
  intros H. induction s as [|c s IH]; simpl; [auto|].
  intros Hs. apply andb_prop in Hs as [Hc Hs]. rewrite (H c Hc). auto.
Qed.

Lemma percent_encode_byte_component c :
  Str.all is_component_char (URLSearchParams.percent_encode_byte c) = true.
Proof. each_ascii c. Qed.

Lemma percent_encode_component s :
  Str.all is_component_char (URLSearchParams.percent_encode s) = true.
Proof.
  induction s as [|c s IH]; [reflexivity|].
  simpl. rewrite all_app, percent_encode_byte_component. assumption.
Qed.

Lemma component_char_plain c :
  is_component_char c = true ->
  is_query_char c = true
  /\ URLSearchParams.not_char "=" c = true
  /\ URLSearchParams.not_char "&" c = true
  /\ URLSearchParams.not_char "?" c = true.
Proof. each_ascii c; intros H; try discriminate H; auto. Qed.

Lemma decode_encode_byte c s :
  URLSearchParams.percent_decode
    (Str.map URLSearchParams.plus_to_space (URLSearchParams.percent_encode_byte c ++ s))
  = String c (URLSearchParams.percent_decode (Str.map URLSearchParams.plus_to_space s)).
Proof. each_ascii c. Qed.

(** Percent-decoding undoes the serializer's encoding, byte for byte. *)
Lemma percent_decode_encode s :
  URLSearchParams.percent_decode
    (Str.map URLSearchParams.plus_to_space (URLSearchParams.percent_encode s)) = s.
Proof.
  induction s as [|c s IH]; [reflexivity|].
  simpl URLSearchParams.percent_encode. rewrite decode_encode_byte, IH. reflexivity.
Qed.

Lemma takeWhile_append_stop p a c b :
  Str.all p a = true -> p c = false ->
  Str.takeWhile p (a ++ String c b) = a.
Proof.
  induction a as [|x a IH]; simpl; intros Ha Hc.
  - rewrite Hc. reflexivity.
  - apply andb_prop in Ha as [Hx Ha]. rewrite Hx, IH by assumption. reflexivity.
Qed.

Lemma takeWhile_all p s : Str.all p s = true -> Str.takeWhile p s = s.
Proof.
  induction s as [|c s IH]; simpl; [reflexivity|].
  intros H. apply andb_prop in H as [Hc Hs]. rewrite Hc, IH by assumption. reflexivity.
Qed.

Lemma serialize_pair_plain e :
  Str.all (URLSearchParams.not_char "&") (serialize_pair e) = true
  /\ Str.all is_query_char (serialize_pair e) = true
  /\ URLSearchParams.nonempty (serialize_pair e) = true.
Proof.
  unfold serialize_pair.
  pose proof (percent_encode_component (fst e)) as H1.
  pose proof (percent_encode_component (snd e)) as H2.
  rewrite !all_app. simpl.
  rewrite (all_impl _ _ _ (fun c H => proj1 (proj2 (proj2 (component_char_plain c H)))) H1).
  rewrite (all_impl _ _ _ (fun c H => proj1 (proj2 (proj2 (component_char_plain c H)))) H2).
  rewrite (all_impl _ _ _ (fun c H => proj1 (component_char_plain c H)) H1).
  rewrite (all_impl _ _ _ (fun c H => proj1 (component_char_plain c H)) H2).
  repeat split.
  destruct (URLSearchParams.percent_encode (fst e)); reflexivity.
Qed.

Lemma parse_pair_serialize e :
  URLSearchParams.parse_pair (serialize_pair e)
  = (URLSearchParams.utf8_decode (fst e), URLSearchParams.utf8_decode (snd e)).
Proof.
  unfold URLSearchParams.parse_pair, serialize_pair.
  pose proof (percent_encode_component (fst e)) as H1.
  assert (Hn : Str.all (URLSearchParams.not_char "=") (URLSearchParams.percent_encode (fst e)) = true).
  { apply (all_impl _ _ _ (fun c H => proj1 (proj2 (component_char_plain c H))) H1). }
  change (URLSearchParams.percent_encode (fst e) ++ "=" ++ URLSearchParams.percent_encode (snd e))
    with (URLSearchParams.percent_encode (fst e)
          ++ String "=" (URLSearchParams.percent_encode (snd e))).
  rewrite takeWhile_append_stop, dropWhile_append_stop by (auto; reflexivity).
  unfold URLSearchParams.decode_component. simpl URLSearchParams.tail.
  rewrite !percent_decode_encode. reflexivity.
Qed.

Lemma split_join_plain sep (pieces : list string) :
  pieces <> [] ->
  Forall (fun s => Str.all (URLSearchParams.not_char sep) s = true) pieces ->
  Str.split sep (Str.join (String sep "") pieces) = pieces.
Proof.
  induction pieces as [|a pieces IH]; intros Hne Hall; [congruence|].
  inversion Hall as [|? ? Ha Hrest]; subst.
  assert (Hsep : URLSearchParams.not_char sep sep = false).
  { unfold URLSearchParams.not_char, Str.is_char. rewrite Ascii.eqb_refl. reflexivity. }
  destruct pieces as [|b pieces].
  - simpl. rewrite split_unfold, takeWhile_all, dropWhile_all by assumption. reflexivity.
  - change (Str.join (String sep "") (a :: b :: pieces))
      with (a ++ String sep (Str.join (String sep "") (b :: pieces))).
    rewrite split_unfold, takeWhile_append_stop, dropWhile_append_stop by assumption.
    rewrite IH by (congruence || assumption). reflexivity.
Qed.

Lemma filter_all_true {A : Type} (p : A -> bool) (l : list A) :
  Forall (fun x => p x = true) l -> filter p l = l.
Proof.
  induction 1 as [|x l Hx Hl IH]; simpl; [reflexivity|]. rewrite Hx, IH. reflexivity.
Qed.

(** Parsing a serialized list gives the list back, each name and value
    passed through the UTF-8 decoder. *)
Lemma parse_toString l :
  URLSearchParams.parse (URLSearchParams.toString l)
  = map (fun e : string * string =>
           (URLSearchParams.utf8_decode (fst e), URLSearchParams.utf8_decode (snd e))) l.
Proof.
  unfold URLSearchParams.parse, URLSearchParams.toString.
  fold serialize_pair.
  change (fun e : string * string =>
            URLSearchParams.percent_encode (fst e) ++ "=" ++ URLSearchParams.percent_encode (snd e))
    with serialize_pair.
  destruct l as [|e l]; [reflexivity|].
  rewrite split_join_plain.
  - rewrite filter_all_true.
    + rewrite map_map. apply map_ext. intros x. apply parse_pair_serialize.
    + apply Forall_forall. intros x Hx. apply in_map_iff in Hx as (y & <- & _).
      apply serialize_pair_plain.
  - simpl. discriminate.
  - apply Forall_forall. intros x Hx. apply in_map_iff in Hx as (y & <- & _).
    apply serialize_pair_plain.
Qed.

(** *** The UTF-8 decoder *)

Ltac solve_N_tests :=
  repeat match goal with
         | |- context [(?a <=? ?b)%N] =>
             let H := fresh in
             destruct (N.leb_spec a b) as [H|H]; try (exfalso; unfold in_range in *; lia)
         end;
  simpl.

Lemma utf8_lead_one b :
  (N_of_ascii b <= 127)%N ->
  URLSearchParams.utf8_lead b = (String b "", (O, 128, 191, ""))%N.
Proof. intros H. unfold URLSearchParams.utf8_lead. solve_N_tests. reflexivity. Qed.

Lemma utf8_lead_two b :
  in_range 194 223 b ->
  URLSearchParams.utf8_lead b = ("", (1%nat, 128, 191, String b ""))%N.
Proof. intros H. unfold URLSearchParams.utf8_lead. solve_N_tests. reflexivity. Qed.

Lemma utf8_lead_three b :
  in_range 224 239 b ->
  URLSearchParams.utf8_lead b
  = ("", (2%nat, if N_of_ascii b =? 224 then 160 else 128,
          if N_of_ascii b =? 237 then 159 else 191, String b ""))%N.
Proof. intros H. unfold URLSearchParams.utf8_lead. solve_N_tests. reflexivity. Qed.

Lemma utf8_lead_four b :
  in_range 240 244 b ->
  URLSearchParams.utf8_lead b
  = ("", (3%nat, if N_of_ascii b =? 240 then 144 else 128,
          if N_of_ascii b =? 244 then 143 else 191, String b ""))%N.
Proof. intros H. unfold URLSearchParams.utf8_lead. solve_N_tests. reflexivity. Qed.

Lemma utf8_lead_cases b :
  ((N_of_ascii b <= 127)%N
   /\ URLSearchParams.utf8_lead b = (String b "", (O, 128, 191, ""))%N)
  \/ (in_range 194 223 b
      /\ URLSearchParams.utf8_lead b = ("", (1%nat, 128, 191, String b ""))%N)
  \/ (in_range 224 239 b
      /\ URLSearchParams.utf8_lead b
         = ("", (2%nat, if N_of_ascii b =? 224 then 160 else 128,
                 if N_of_ascii b =? 237 then 159 else 191, String b ""))%N)
  \/ (in_range 240 244 b
      /\ URLSearchParams.utf8_lead b
         = ("", (3%nat, if N_of_ascii b =? 240 then 144 else 128,
                 if N_of_ascii b =? 244 then 143 else 191, String b ""))%N)
  \/ URLSearchParams.utf8_lead b = (URLSearchParams.replacement, (O, 128, 191, ""))%N.
Proof.
  destruct (N.leb_spec (N_of_ascii b) 127) as [H1|H1];
    [left; split; [assumption | apply utf8_lead_one; assumption]|].
  destruct (N.leb_spec 194 (N_of_ascii b)) as [H2|H2].
  - destruct (N.leb_spec (N_of_ascii b) 223) as [H3|H3];
      [right; left; split; [split; assumption | apply utf8_lead_two; split; assumption]|].
    destruct (N.leb_spec (N_of_ascii b) 239) as [H4|H4];
      [right; right; left; split;
       [split; lia | apply utf8_lead_three; split; lia]|].
    destruct (N.leb_spec (N_of_ascii b) 244) as [H5|H5];
      [right; right; right; left; split;
       [split; lia | apply utf8_lead_four; split; lia]|].
    right; right; right; right.
    unfold URLSearchParams.utf8_lead. solve_N_tests. reflexivity.
  - right; right; right; right.
    unfold URLSearchParams.utf8_lead. solve_N_tests. reflexivity.
Qed.

Lemma utf8_replacement s : utf8 s -> utf8 (URLSearchParams.replacement ++ s).
Proof.
  intros H. unfold URLSearchParams.replacement. simpl.
  apply utf8_three; try assumption; unfold in_range; simpl; lia.
Qed.

Lemma in_range_test lo hi c :
  in_range lo hi c ->
  ((lo <=? N_of_ascii c) && (N_of_ascii c <=? hi))%N = true.
Proof.
  intros [H1 H2]. apply andb_true_intro. split; apply N.leb_le; assumption.
Qed.

Lemma in_range_test_iff lo hi c :
  ((lo <=? N_of_ascii c) && (N_of_ascii c <=? hi))%N = true <-> in_range lo hi c.
Proof.
  split; [|apply in_range_test].
  intros H. apply andb_prop in H as [H1 H2]. apply N.leb_le in H1, H2. split; assumption.
Qed.

(** Well-formed text goes through the decoder unchanged. *)
Lemma utf8_decode_wellformed s : utf8 s -> URLSearchParams.utf8_decode s = s.
Proof.
  unfold URLSearchParams.utf8_decode.
  induction 1 as [|b s Hb Hs IH|b c1 s Hb H1 Hs IH|b c1 c2 s Hb H1 H2 Hs IH
                  |b c1 c2 c3 s Hb H1 H2 H3 Hs IH].
  - reflexivity.
  - simpl. rewrite (utf8_lead_one b Hb). simpl. rewrite IH. reflexivity.
  - simpl. rewrite (utf8_lead_two b Hb). simpl.
    rewrite (in_range_test _ _ _ H1). rewrite IH. reflexivity.
  - simpl. rewrite (utf8_lead_three b Hb). simpl.
    rewrite (in_range_test _ _ _ H1). rewrite (in_range_test _ _ _ H2).
    rewrite IH. reflexivity.
  - simpl. rewrite (utf8_lead_four b Hb). simpl.
    rewrite (in_range_test _ _ _ H1). rewrite (in_range_test _ _ _ H2).
    rewrite (in_range_test _ _ _ H3). rewrite IH. reflexivity.
Qed.

Lemma decoder_ready_lead b s :
  (forall n lo hi held,
     decoder_ready n lo hi held -> utf8 (URLSearchParams.utf8_decode_from n lo hi held s)) ->
  utf8 (let '(out, (n, l, h, p)) := URLSearchParams.utf8_lead b in
        out ++ URLSearchParams.utf8_decode_from n l h p s).
Proof.
  intros IH.
  destruct (utf8_lead_cases b) as [[Hb E]|[[Hb E]|[[Hb E]|[[Hb E]|E]]]]; rewrite E.
  - simpl. apply utf8_one; [assumption|]. apply IH. left. reflexivity.
  - simpl. apply IH. right. intros t u Ht Hu.
    destruct t as [|c1 [|? ?]]; simpl in Ht; try tauto; try (destruct Ht as [_ Ht]; discriminate Ht).
    destruct Ht as [H1 _]. simpl. apply utf8_two; assumption.
  - simpl. apply IH. right. intros t u Ht Hu.
    destruct t as [|c1 [|c2 [|? ?]]]; simpl in Ht; try tauto;
      try (destruct Ht as [_ [_ Ht]]; discriminate Ht).
    destruct Ht as [H1 [H2 _]]. simpl. apply utf8_three; assumption.
  - simpl. apply IH. right. intros t u Ht Hu.
    destruct t as [|c1 [|c2 [|c3 [|? ?]]]]; simpl in Ht; try tauto;
      try (destruct Ht as [_ [_ [_ Ht]]]; discriminate Ht).
    destruct Ht as [H1 [H2 [H3 _]]]. simpl. apply utf8_four; assumption.
  - apply utf8_replacement. apply IH. left. reflexivity.
Qed.

(** Whatever the bytes, the decoder writes well-formed text. *)
Lemma utf8_decode_from_utf8 s :
  forall n lo hi held,
    decoder_ready n lo hi held -> utf8 (URLSearchParams.utf8_decode_from n lo hi held s).
Proof.
  induction s as [|b s IH]; intros n lo hi held Hready.
  - destruct n; simpl; [constructor|].
    rewrite <- (append_nil_r URLSearchParams.replacement).
    apply utf8_replacement. constructor.
  - destruct n as [|m].
    + simpl. apply decoder_ready_lead. assumption.
    + destruct Hready as [Hz|Hready]; [discriminate Hz|].
      simpl.
      destruct ((lo <=? N_of_ascii b) && (N_of_ascii b <=? hi))%N eqn:E.
      * apply in_range_test_iff in E. destruct m as [|m'].
        -- apply (Hready (String b "") (URLSearchParams.utf8_decode_from 0 128 191 "" s)).
           ++ simpl. auto.
           ++ apply IH. left. reflexivity.
        -- apply IH. right. intros t u Ht Hu.
           rewrite append_assoc. simpl.
           apply (Hready (String b t) u); [|assumption]. simpl. auto.
      * pose proof (decoder_ready_lead b s IH) as Hlead.
        destruct (URLSearchParams.utf8_lead b) as [out [[[n' l'] h'] p']].
        apply utf8_replacement. assumption.
Qed.

Lemma utf8_decode_utf8 s : utf8 (URLSearchParams.utf8_decode s).
Proof. apply utf8_decode_from_utf8. left. reflexivity. Qed.

(** Decoding twice is decoding once. *)
Lemma utf8_decode_idempotent s :
  URLSearchParams.utf8_decode (URLSearchParams.utf8_decode s) = URLSearchParams.utf8_decode s.
Proof. apply utf8_decode_wellformed, utf8_decode_utf8. Qed.

Lemma well_formed_utf8 s : well_formed s <-> utf8 s.
Proof.
  split; [|apply utf8_decode_wellformed].
  intros H. rewrite <- H. apply utf8_decode_utf8.
Qed.

Lemma utf8_ascii s : Str.all Str.is_ascii s = true -> utf8 s.
Proof.
  induction s as [|c s IH]; [constructor|].
  simpl. intros H. apply andb_prop in H as [Hc Hs].
  apply utf8_one; [|auto]. unfold Str.is_ascii in Hc. apply N.ltb_lt in Hc. lia.
Qed.

Lemma well_formed_parse input : well_formed_entries (URLSearchParams.parse input).
Proof.
  unfold well_formed_entries, URLSearchParams.parse.
  apply Forall_forall. intros e He. apply in_map_iff in He as (x & <- & _).
  unfold URLSearchParams.parse_pair, URLSearchParams.decode_component, well_formed.
  simpl. split; apply utf8_decode_idempotent.
Qed.

Lemma parse_toString_well_formed l :
  well_formed_entries l ->
  URLSearchParams.parse (URLSearchParams.toString l) = l.
Proof.
  intros H. rewrite parse_toString. induction H as [|[n v] l [Hn Hv] Hl IH]; [reflexivity|].
  simpl in *. unfold well_formed in *. rewrite Hn, Hv, IH. reflexivity.
Qed.

(** *** More on formatUrlWithQuery *)

Lemma all_join p sep pieces :
  Str.all p sep = true ->
  Forall (fun s => Str.all p s = true) pieces ->
  Str.all p (Str.join sep pieces) = true.
Proof.
  intros Hsep. induction 1 as [|a pieces Ha Hrest IH]; [reflexivity|].
  destruct pieces as [|b pieces]; [assumption|].
  change (Str.join sep (a :: b :: pieces)) with (a ++ sep ++ Str.join sep (b :: pieces)).
  rewrite !all_app, Ha, Hsep, IH. reflexivity.
Qed.

Lemma toString_query_chars l :
  Str.all is_query_char (URLSearchParams.toString l) = true.
Proof.
  unfold URLSearchParams.toString. apply all_join; [reflexivity|].
  apply Forall_forall. intros x Hx. apply in_map_iff in Hx as (e & <- & _).
  apply (serialize_pair_plain e).
Qed.

Lemma query_char_plain c :
  is_query_char c = true ->
  URLSearchParams.not_char "?" c = true /\ URLSearchParams.not_char "#" c = true.
Proof. each_ascii c; intros H; try discriminate H; auto. Qed.

Lemma toString_no_question_mark l : has_char "?" (URLSearchParams.toString l) = false.
Proof.
  unfold has_char. apply negb_false_iff.
  apply (all_impl _ _ _ (fun c H => proj1 (query_char_plain c H))), toString_query_chars.
Qed.

(** The result, cut at its first [?]. *)
Lemma formatUrlWithQuery_parts url params :
  before "?" (formatUrlWithQuery url params) = before "?" url
  /\ after "?" (formatUrlWithQuery url params)
     = URLSearchParams.toString (set_all params (URLSearchParams.parse (existing_query url))).
Proof.
  rewrite formatUrlWithQuery_eq.
  change (before "?" url ++ "?" ++ ?q) with (before "?" url ++ String "?" q).
  rewrite before_append_stop, after_append_stop by apply has_char_before.
  split; reflexivity.
Qed.

Lemma getAll_nil_remove name l :
  URLSearchParams.getAll name l = [] -> URLSearchParams.remove name l = l.
Proof.
  unfold URLSearchParams.getAll, URLSearchParams.remove.
  induction l as [|e l IH]; [reflexivity|].
  simpl. destruct (String.eqb (fst e) name); simpl; [discriminate|].
  intros H. rewrite IH by assumption. reflexivity.
Qed.

(** Setting a key to the value it already has, once, changes nothing. *)
Lemma set_same name value l :
  URLSearchParams.getAll name l = [value] -> URLSearchParams.set name value l = l.
Proof.
  induction l as [|e l IH]; [discriminate|].
  unfold URLSearchParams.getAll in *. simpl.
  destruct (String.eqb (fst e) name) eqn:E; simpl.
  - intros H. inversion H as [[Hv Hrest]].
    fold (URLSearchParams.getAll name l) in Hrest.
    rewrite (getAll_nil_remove _ _ Hrest).
    apply String.eqb_eq in E. destruct e as [n v]. simpl in *. congruence.
  - intros H. rewrite IH by assumption. reflexivity.
Qed.

Lemma set_all_fixed ps es :
  (forall k v, In (k, v) ps -> URLSearchParams.getAll k es = [v]) ->
  set_all ps es = es.
Proof.
  unfold set_all. induction ps as [|[k v] ps IH]; intros H; [reflexivity|].
  simpl. rewrite set_same by (apply H; left; reflexivity).
  apply IH. intros k' v' Hin. apply H. right. assumption.
Qed.

Lemma set_all_idempotent params l :
  NoDup (map fst params) ->
  set_all params (set_all params l) = set_all params l.
Proof.
  intros Hnd. apply set_all_fixed. intros k v Hin.
  apply getAll_set_all_key; assumption.
Qed.

Lemma set_fresh name value l :
  ~ In name (map fst l) -> URLSearchParams.set name value l = (l ++ [(name, value)])%list.
Proof.
  induction l as [|e l IH]; intros H; [reflexivity|].
  simpl in *. destruct (String.eqb (fst e) name) eqn:E.
  - apply String.eqb_eq in E. tauto.
  - rewrite IH by tauto. reflexivity.
Qed.

Lemma set_all_fresh ps acc :
  NoDup (map fst (acc ++ ps)%list) -> set_all ps acc = (acc ++ ps)%list.
Proof.
  unfold set_all. revert acc. induction ps as [|[k v] ps IH]; intros acc H.
  - rewrite app_nil_r. reflexivity.
  - simpl. rewrite set_fresh.
    + rewrite IH; rewrite <- app_assoc; [reflexivity|assumption].
    + rewrite map_app in H. simpl in H. apply NoDup_remove_2 in H.
      intros Hin. apply H. apply in_or_app. left. assumption.
Qed.

Lemma well_formed_set name value l :
  well_formed name -> well_formed value -> well_formed_entries l ->
  well_formed_entries (URLSearchParams.set name value l).
Proof.
  unfold well_formed_entries. intros Hn Hv. induction 1 as [|e l He Hl IH]; simpl.
  - repeat constructor; assumption.
  - destruct (String.eqb (fst e) name).
    + constructor; [split; assumption|].
      unfold URLSearchParams.remove. apply Forall_forall. intros x Hx.
      apply filter_In in Hx as [Hx _]. rewrite Forall_forall in Hl. auto.
    + constructor; assumption.
Qed.

Lemma well_formed_set_all params l :
  well_formed_entries params -> well_formed_entries l ->
  well_formed_entries (set_all params l).
Proof.
  unfold set_all. intros Hp. revert l.
  induction Hp as [|[k v] ps [Hk Hv] Hps IH]; intros l Hl; [assumption|].
  simpl. apply IH. apply well_formed_set; assumption.
Qed.




(** X1. Whatever the input, the result has exactly one question mark,
    the base path is the one of [url], and what follows the question mark
    is written with the letters, digits, [*], [-], [.], [_], [%], [+], [=]
    and [&] only: no second [?], no [#], no space. *)
Theorem formatUrlWithQuery_query_alphabet (url : string) (params : list (string * string)) :
  before "?" (formatUrlWithQuery url params) = before "?" url
  /\ has_char "?" (formatUrlWithQuery url params) = true
  /\ Str.all is_query_char (after "?" (formatUrlWithQuery url params)) = true
  /\ has_char "?" (after "?" (formatUrlWithQuery url params)) = false
  /\ has_char "#" (after "?" (formatUrlWithQuery url params)) = false.
Proof.
  destruct (formatUrlWithQuery_parts url params) as [Hb Ha].
  split; [exact Hb|]. split.
  - rewrite formatUrlWithQuery_eq. unfold has_char. apply negb_true_iff.
    rewrite all_app. apply andb_false_iff. right. reflexivity.
  - rewrite Ha. split; [apply toString_query_chars|].
    split; [apply toString_no_question_mark|].
    unfold has_char. apply negb_false_iff.
    apply (all_impl _ _ _ (fun c H => proj2 (query_char_plain c H))), toString_query_chars.
Qed.

(** X2. For a [url] without question mark the result is the [url], a
    question mark and the serialized [params] in their order; with no
    [params] at all it is the [url] with a question mark at its end. *)
Theorem formatUrlWithQuery_without_query (url : string) (params : list (string * string)) :
  has_char "?" url = false ->
  NoDup (map fst params) ->
  formatUrlWithQuery url params = url ++ "?" ++ URLSearchParams.toString params
  /\ formatUrlWithQuery url [] = url ++ "?".
Proof.
  intros Hq Hnd. rewrite !formatUrlWithQuery_eq. unfold existing_query, after.
  rewrite (before_no_char _ _ Hq).
  unfold has_char in Hq. apply negb_false_iff in Hq.
  rewrite (dropWhile_all _ _ Hq). simpl URLSearchParams.tail.
  change (before "?" "") with "". change (URLSearchParams.parse "") with (@nil (string * string)).
  rewrite set_all_fresh by assumption. split; reflexivity.
Qed.

Lemma formatUrlWithQuery_without_query_witness :
  has_char "?" "/blog#top" = false
  /\ NoDup (map fst [("tag", "c#"); ("page", "2")])
  /\ formatUrlWithQuery "/blog#top" [("tag", "c#"); ("page", "2")]
     = "/blog#top?tag=c%23&page=2".
Proof.
  assert (Hnd : NoDup (map fst [("tag", "c#"); ("page", "2")])).
  { simpl. repeat constructor; simpl; intuition discriminate. }
  split; [reflexivity|]. split; [exact Hnd|].
  rewrite (proj1 (formatUrlWithQuery_without_query "/blog#top"
                    [("tag", "c#"); ("page", "2")] eq_refl Hnd)).
  reflexivity.
Defined.

(** X3. When the keys and the values of [params] are well-formed text
    (strings without a lone surrogate), reading the query of the result
    back gives the pairs the code has built, and each key of [params] reads
    back as the value it was given: the separators and the reserved
    characters in a value are escaped and restored. *)
Theorem formatUrlWithQuery_read_back (url : string) (params : list (string * string)) :
  well_formed_entries params ->
  URLSearchParams.parse (after "?" (formatUrlWithQuery url params))
  = set_all params (URLSearchParams.parse (existing_query url))
  /\ (NoDup (map fst params) ->
      forall k v, In (k, v) params ->
        URLSearchParams.getAll k
          (URLSearchParams.parse (after "?" (formatUrlWithQuery url params))) = [v]).
Proof.
  intros Hwf.
  assert (E : URLSearchParams.parse (after "?" (formatUrlWithQuery url params))
              = set_all params (URLSearchParams.parse (existing_query url))).
  { rewrite (proj2 (formatUrlWithQuery_parts url params)).
    apply parse_toString_well_formed, well_formed_set_all; [assumption|].
    apply well_formed_parse. }
  split; [exact E|].
  intros Hnd k v Hin. rewrite E. apply getAll_set_all_key; assumption.
Qed.

Lemma formatUrlWithQuery_read_back_witness :
  well_formed_entries [("q", "a&b=c ?+%")]
  /\ formatUrlWithQuery "/s?x=1" [("q", "a&b=c ?+%")] = "/s?x=1&q=a%26b%3Dc+%3F%2B%25"
  /\ URLSearchParams.getAll "q"
       (URLSearchParams.parse (after "?" (formatUrlWithQuery "/s?x=1" [("q", "a&b=c ?+%")])))
     = ["a&b=c ?+%"].
Proof.
  assert (Hwf : well_formed_entries [("q", "a&b=c ?+%")]).
  { repeat constructor. }
  split; [exact Hwf|]. split; [reflexivity|].
  apply (proj2 (formatUrlWithQuery_read_back "/s?x=1" [("q", "a&b=c ?+%")] Hwf)).
  - simpl. repeat constructor. simpl. tauto.
  - left. reflexivity.
Defined.

(** X4. Applying the same [params] to the result again changes nothing. *)
Theorem formatUrlWithQuery_idempotent (url : string) (params : list (string * string)) :
  well_formed_entries params ->
  NoDup (map fst params) ->
  formatUrlWithQuery (formatUrlWithQuery url params) params
  = formatUrlWithQuery url params.
Proof.
  intros Hwf Hnd.
  rewrite (formatUrlWithQuery_eq (formatUrlWithQuery url params)).
  unfold existing_query.
  destruct (formatUrlWithQuery_parts url params) as [Hb Ha].
  rewrite Hb, Ha.
  rewrite (before_no_char _ _ (toString_no_question_mark _)).
  rewrite parse_toString_well_formed
    by (apply well_formed_set_all; [assumption | apply well_formed_parse]).
  rewrite set_all_idempotent by assumption.
  symmetry. apply formatUrlWithQuery_eq.
Qed.

Lemma formatUrlWithQuery_idempotent_witness :
  well_formed_entries [("q", "b c"); ("lang", "en")]
  /\ NoDup (map fst [("q", "b c"); ("lang", "en")])
  /\ formatUrlWithQuery (formatUrlWithQuery "/s?q=a&x=%41&q=z" [("q", "b c"); ("lang", "en")])
       [("q", "b c"); ("lang", "en")]
     = formatUrlWithQuery "/s?q=a&x=%41&q=z" [("q", "b c"); ("lang", "en")].
Proof.
  assert (Hwf : well_formed_entries [("q", "b c"); ("lang", "en")]).
  { repeat constructor. }
  assert (Hnd : NoDup (map fst [("q", "b c"); ("lang", "en")])).
  { simpl. repeat constructor; simpl; intuition discriminate. }
  split; [exact Hwf|]. split; [exact Hnd|].
  exact (formatUrlWithQuery_idempotent _ _ Hwf Hnd).
Defined.



(** *** More on isAbsoluteUrl and slugify *)

Lemma scheme_test_append s t :
  (t = "" \/ exists t', t = String "?" t') ->
  match Str.dropWhile is_scheme_char (s ++ t) with
  | String d _ => Str.is_char ":" d
  | EmptyString => false
  end
  = match Str.dropWhile is_scheme_char s with
    | String d _ => Str.is_char ":" d
    | EmptyString => false
    end.
Proof.
  intros Ht. induction s as [|c s IH]; simpl.
  - destruct Ht as [->|[t' ->]]; reflexivity.
  - destruct (is_scheme_char c); [assumption | reflexivity].
Qed.

Lemma isAbsoluteUrl_append_query s t :
  (t = "" \/ exists t', t = String "?" t') ->
  isAbsoluteUrl (s ++ t) = isAbsoluteUrl s.
Proof.
  intros Ht. rewrite !isAbsoluteUrl_eq. destruct s as [|c s].
  - destruct Ht as [->|[t' ->]]; reflexivity.
  - simpl. rewrite scheme_test_append by assumption. reflexivity.
Qed.

Lemma cut_at_question_mark url :
  exists t, url = before "?" url ++ t /\ (t = "" \/ exists t', t = String "?" t').
Proof.
  exists (Str.dropWhile (URLSearchParams.not_char "?") url).
  split; [symmetry; apply takeWhile_dropWhile|].
  destruct (Str.dropWhile (URLSearchParams.not_char "?") url) as [|d t'] eqn:E; [auto|].
  right. exists t'. apply dropWhile_head in E.
  unfold URLSearchParams.not_char in E. apply negb_false_iff, is_char_eq in E.
  congruence.
Qed.

(** X6. Adding query parameters never changes whether a link counts as
    absolute. *)
Theorem isAbsoluteUrl_formatUrlWithQuery (url : string) (params : list (string * string)) :
  isAbsoluteUrl (formatUrlWithQuery url params) = isAbsoluteUrl url.
Proof.
  rewrite formatUrlWithQuery_eq.
  destruct (cut_at_question_mark url) as (t & Hurl & Ht).
  pose proof (isAbsoluteUrl_append_query (before "?" url) t Ht) as H.
  rewrite <- Hurl in H. rewrite H.
  apply isAbsoluteUrl_append_query. right. eexists. reflexivity.
Qed.

Lemma scheme_test_no_colon s :
  has_char ":" s = false ->
  match Str.dropWhile is_scheme_char s with
  | String d _ => Str.is_char ":" d
  | EmptyString => false
  end = false.
Proof.
  unfold has_char. intros H. apply negb_false_iff in H.
  induction s as [|c s IH]; [reflexivity|].
  simpl in *. apply andb_prop in H as [Hc Hs].
  destruct (is_scheme_char c); [auto|].
  unfold URLSearchParams.not_char in Hc. apply negb_true_iff in Hc. assumption.
Qed.

Lemma isAbsoluteUrl_no_colon url : has_char ":" url = false -> isAbsoluteUrl url = false.
Proof.
  intros H. rewrite isAbsoluteUrl_eq. destruct url as [|c s]; [reflexivity|].
  unfold has_char in H. simpl in H. apply negb_false_iff, andb_prop in H as [_ Hs].
  rewrite scheme_test_no_colon by (unfold has_char; rewrite Hs; reflexivity).
  apply andb_false_r.
Qed.

Lemma scheme_test_extend s t :
  match Str.dropWhile is_scheme_char s with
  | String d _ => Str.is_char ":" d
  | EmptyString => false
  end = true ->
  match Str.dropWhile is_scheme_char (s ++ t) with
  | String d _ => Str.is_char ":" d
  | EmptyString => false
  end = true.
Proof.
  induction s as [|c s IH]; simpl; [discriminate|].
  destruct (is_scheme_char c); auto.
Qed.

(** X7. A string without a colon is never absolute, whatever it starts
    with, and an absolute URL stays absolute whatever is put after it. *)
Theorem isAbsoluteUrl_colon_and_suffix :
  (forall url : string, has_char ":" url = false -> isAbsoluteUrl url = false)
  /\ (forall url rest : string,
        isAbsoluteUrl url = true -> isAbsoluteUrl (url ++ rest) = true).
Proof.
  split; [exact isAbsoluteUrl_no_colon|].
  intros url rest. rewrite !isAbsoluteUrl_eq.
  destruct url as [|c s]; [discriminate|].
  simpl. intros H. apply andb_prop in H as [Hc Hs].
  rewrite Hc, (scheme_test_extend _ _ Hs). reflexivity.
Qed.

Lemma isAbsoluteUrl_colon_and_suffix_witness :
  has_char ":" "//example.com/a" = false
  /\ isAbsoluteUrl "//example.com/a" = false
  /\ isAbsoluteUrl "mailto:" = true
  /\ isAbsoluteUrl ("mailto:" ++ "me@example.com") = true.
Proof.
  split; [reflexivity|].
  split; [apply (proj1 isAbsoluteUrl_colon_and_suffix); reflexivity|].
  split; [reflexivity|].
  apply (proj2 isAbsoluteUrl_colon_and_suffix). reflexivity.
Defined.

Lemma filter_chars_dropWhile p q s :
  (forall c, q c = true -> p c = false) ->
  filter_chars p (Str.dropWhile q s) = filter_chars p s.
Proof.
  intros H. induction s as [|c s IH]; [reflexivity|].
  simpl. destruct (q c) eqn:E; [|reflexivity].
  rewrite (H c E). assumption.
Qed.

Lemma filter_chars_trim_trailing p q s :
  (forall c, q c = true -> p c = false) ->
  filter_chars p (trim_trailing q s) = filter_chars p s.
Proof.
  intros H. induction s as [|c s IH]; [reflexivity|].
  simpl. destruct (trim_trailing q s) as [|d r].
  - simpl in IH. destruct (q c) eqn:E.
    + rewrite (H c E). assumption.
    + simpl. rewrite <- IH. reflexivity.
  - change (filter_chars p (String c (String d r)))
      with (if p c then String c (filter_chars p (String d r)) else filter_chars p (String d r)).
    rewrite IH. reflexivity.
Qed.

Lemma not_slug_not_slug c : not_slug_char c = true -> is_slug_char c = false.
Proof. unfold not_slug_char. apply negb_true_iff. Qed.

Lemma hyphen_is_not_slug c : Str.is_char "-" c = true -> is_slug_char c = false.
Proof. each_ascii c; intros H; discriminate H. Qed.

Lemma filter_chars_hyphenate_len n s :
  (String.length s < n)%nat ->
  filter_chars is_slug_char (hyphenate_runs s) = filter_chars is_slug_char s.
Proof.
  revert s. induction n as [|n IH]; intros s Hn; [lia|].
  destruct s as [|c s]; [reflexivity|]. simpl in Hn.
  destruct (not_slug_char c) eqn:Hc.
  - rewrite hyphenate_skip by assumption. simpl.
    rewrite (not_slug_not_slug _ Hc).
    rewrite IH by (pose proof (length_dropWhile not_slug_char s); lia).
    apply filter_chars_dropWhile. apply not_slug_not_slug.
  - rewrite hyphenate_keep by assumption. simpl.
    rewrite IH by lia. reflexivity.
Qed.

Lemma length_hyphenate_len n s :
  (String.length s < n)%nat ->
  (String.length (hyphenate_runs s) <= String.length s)%nat.
Proof.
  revert s. induction n as [|n IH]; intros s Hn; [lia|].
  destruct s as [|c s]; [simpl; lia|]. simpl in Hn.
  destruct (not_slug_char c) eqn:Hc.
  - rewrite hyphenate_skip by assumption. simpl.
    pose proof (length_dropWhile not_slug_char s) as Hd.
    specialize (IH (Str.dropWhile not_slug_char s)). lia.
  - rewrite hyphenate_keep by assumption. simpl. specialize (IH s). lia.
Qed.

Lemma length_trim_trailing p s :
  (String.length (trim_trailing p s) <= String.length s)%nat.
Proof.
  induction s as [|c s IH]; simpl; [lia|].
  destruct (trim_trailing p s); [destruct (p c)|]; simpl in *; lia.
Qed.

(** X8. A slug keeps the letters and digits of the lowercased text, all
    of them and in their order: it is that text with hyphens in the place
    of everything else, and it is never longer. *)
Theorem slugify_keeps_letters_and_digits (toLowerCase : string -> string) (text : string) :
  filter_chars is_slug_char (slugify toLowerCase text)
  = filter_chars is_slug_char (toLowerCase text)
  /\ (String.length (slugify toLowerCase text) <= String.length (toLowerCase text))%nat.
Proof.
  rewrite slugify_eq_spec. unfold slugify_spec, trim_hyphens. split.
  - rewrite filter_chars_trim_trailing, filter_chars_dropWhile by apply hyphen_is_not_slug.
    apply (filter_chars_hyphenate_len (S (String.length (toLowerCase text)))). lia.
  - pose proof (length_trim_trailing (Str.is_char "-")
                  (Str.dropWhile (Str.is_char "-") (hyphenate_runs (toLowerCase text)))).
    pose proof (length_dropWhile (Str.is_char "-") (hyphenate_runs (toLowerCase text))).
    pose proof (length_hyphenate_len (S (String.length (toLowerCase text)))
                  (toLowerCase text) (Nat.lt_succ_diag_r _)).
    lia.
Qed.

Lemma filter_chars_nil_all s :
  filter_chars is_slug_char s = "" <-> Str.all not_slug_char s = true.
Proof.
  unfold not_slug_char. induction s as [|c s IH]; simpl; [tauto|].
  destruct (is_slug_char c); simpl; [split; discriminate | assumption].
Qed.

Lemma only_hyphens_empty s :
  Str.all is_slug_or_hyphen s = true ->
  filter_chars is_slug_char s = "" ->
  no_double_hyphen s = true ->
  starts_with_hyphen s = false ->
  s = "".
Proof.
  destruct s as [|c s]; [reflexivity|].
  simpl. intros Hall Hf _ Hs. exfalso.
  apply andb_prop in Hall as [Hc _]. unfold is_slug_or_hyphen in Hc.
  rewrite Hs, orb_false_r in Hc. rewrite Hc in Hf. discriminate Hf.
Qed.

(** X9. The slug is empty exactly when the lowercased text has no letter
    and no digit of [[a-z0-9]]: punctuation, spaces and text in another
    script alone give the empty slug. *)
Theorem slugify_empty_iff (toLowerCase : string -> string) (text : string) :
  slugify toLowerCase text = "" <-> Str.all not_slug_char (toLowerCase text) = true.
Proof.
  rewrite <- filter_chars_nil_all.
  assert (E : filter_chars is_slug_char (slugify toLowerCase text)
              = filter_chars is_slug_char (toLowerCase text)).
  { rewrite slugify_eq_spec. unfold slugify_spec, trim_hyphens.
    rewrite filter_chars_trim_trailing, filter_chars_dropWhile by apply hyphen_is_not_slug.
    apply (filter_chars_hyphenate_len (S (String.length (toLowerCase text)))). lia. }
  rewrite <- E.
  split; [intros ->; reflexivity|].
  intros Hf. apply only_hyphens_empty; [| assumption | |].
  - rewrite slugify_eq_spec. unfold slugify_spec, trim_hyphens.
    apply all_trim_trailing, all_dropWhile, all_hyphenate.
  - rewrite slugify_eq_spec. unfold slugify_spec, trim_hyphens.
    apply no_double_trim_trailing, no_double_dropWhile, hyphenate_no_double.
  - rewrite slugify_eq_spec. unfold slugify_spec, trim_hyphens.
    apply starts_trim_trailing, starts_dropWhile_hyphen.
Qed.

Lemma slug_or_hyphen_not_colon c :
  is_slug_or_hyphen c = true -> URLSearchParams.not_char ":" c = true.
Proof. each_ascii c; intros H; discriminate H. Qed.

(** X10. A slug is never taken for an absolute URL, and neither is the
    anchor link [#slug] made from it. *)
Theorem isAbsoluteUrl_slugify (toLowerCase : string -> string) (text : string) :
  isAbsoluteUrl (slugify toLowerCase text) = false
  /\ isAbsoluteUrl ("#" ++ slugify toLowerCase text) = false.
Proof.
  split; [|rewrite isAbsoluteUrl_eq; reflexivity].
  apply isAbsoluteUrl_no_colon. unfold has_char. apply negb_false_iff.
  apply (all_impl _ _ _ slug_or_hyphen_not_colon).
  rewrite slugify_eq_spec. unfold slugify_spec, trim_hyphens.
  apply all_trim_trailing, all_dropWhile, all_hyphenate.
Qed.

(** *** More on the pages *)

Lemma insert_archived_last localeCompare x l :
  StronglySorted archived_last l ->
  StronglySorted archived_last (insert (byArchivedThenName localeCompare) x l).
Proof.
  induction 1 as [|y l Hs IH Hall]; simpl.
  - repeat constructor.
  - destruct (byArchivedThenName localeCompare x y <=? 0)%Z eqn:E.
    + constructor; [constructor; assumption|].
      unfold archived_last. apply Forall_forall. intros z Hz Hx.
      assert (Hy : archived y = true).
      { apply Z.leb_le in E. unfold byArchivedThenName in E. rewrite Hx in E.
        destruct (archived y); [reflexivity | simpl in E; lia]. }
      destruct Hz as [<-|Hz]; [assumption|].
      rewrite Forall_forall in Hall. apply (Hall z Hz Hy).
    + constructor; [assumption|].
      apply (Permutation_Forall (insert_Permutation _ x l)).
      constructor; [|assumption].
      intros Hy. apply Z.leb_gt in E. unfold byArchivedThenName in E. rewrite Hy in E.
      destruct (archived x); [reflexivity | simpl in E; lia].
Qed.

Lemma sort_archived_last localeCompare l :
  StronglySorted archived_last (sort (byArchivedThenName localeCompare) l).
Proof.
  induction l as [|x l IH]; simpl; [constructor|].
  apply insert_archived_last. assumption.
Qed.

Lemma archived_last_split l :
  StronglySorted archived_last l ->
  Forall (fun p => archived p = false) (firstn (activeCount l) l)
  /\ Forall (fun p => archived p = true) (skipn (activeCount l) l).
Proof.
  unfold activeCount. induction 1 as [|x l Hs [IH1 IH2] Hall]; [split; constructor|].
  simpl. destruct (archived x) eqn:Hx; simpl.
  - assert (Hl : Forall (fun p => archived p = true) l).
    { eapply Forall_impl; [|exact Hall]. intros z Hz. apply Hz. assumption. }
    assert (E : filter (fun p => negb (archived p)) l = []).
    { clear -Hl. induction Hl as [|z l Hz Hl IH]; [reflexivity|].
      simpl. rewrite Hz. simpl. assumption. }
    rewrite E. simpl. split; constructor; assumption.
  - split; [constructor; assumption | assumption].
Qed.

Lemma activeCount_Permutation l l' :
  Permutation l l' -> activeCount l = activeCount l'.
Proof.
  unfold activeCount. induction 1 as [|x l l' Hp IH|x y l|l l' l'' H1 IH1 H2 IH2];
    simpl; try destruct (archived x); try destruct (archived y); simpl; congruence.
Qed.

Lemma activeCount_deleteUndefined l :
  activeCount (map deleteUndefinedProject l) = activeCount l.
Proof.
  unfold activeCount. induction l as [|x l IH]; [reflexivity|].
  simpl. destruct (archived x); simpl; congruence.
Qed.

(** X11. On the grid page the counter "Active" is the number of cards
    that come before the first archived one: the first [activeCount] cards
    are not archived, all the others are; the counters "Projects" and
    "Active" are those of the data source.  No assumption on the collation. *)
Theorem grid_page_active_cards_first (localeCompare : string -> string -> Z)
  (fakes : list Project) :
  Forall (fun p => archived p = false)
    (firstn (activeCount (getStaticProps_grid localeCompare fakes))
       (getStaticProps_grid localeCompare fakes))
  /\ Forall (fun p => archived p = true)
       (skipn (activeCount (getStaticProps_grid localeCompare fakes))
          (getStaticProps_grid localeCompare fakes))
  /\ activeCount (getStaticProps_grid localeCompare fakes) = activeCount fakes
  /\ length (getStaticProps_grid localeCompare fakes) = length fakes.
Proof.
  unfold getStaticProps_grid. rewrite bufferIterable_loadProjects.
  pose proof (sort_Permutation (byArchivedThenName localeCompare)
                (map deleteUndefinedProject fakes)) as Hp.
  destruct (archived_last_split _ (sort_archived_last localeCompare
                                     (map deleteUndefinedProject fakes))) as [H1 H2].
  split; [exact H1|]. split; [exact H2|]. split.
  - rewrite <- (activeCount_Permutation _ _ Hp). apply activeCount_deleteUndefined.
  - rewrite <- (Permutation_length Hp). apply length_map.
Qed.

Lemma border_strong p :
  In "border-purple-500" (borderClasses p) <-> (1000 <= stars p)%Z.
Proof.
  unfold borderClasses.
  destruct (Z.geb_spec (stars p) 1000), (Z.geb_spec (stars p) 100), (Z.ltb_spec (stars p) 1000),
    (Z.ltb_spec (stars p) 100); simpl; split; intros Hin; try lia;
    repeat (destruct Hin as [Hin|Hin]; try discriminate Hin); try contradiction; auto.
Qed.

Lemma border_weak p :
  In "border-purple-100" (borderClasses p) <-> (stars p < 100)%Z.
Proof.
  unfold borderClasses.
  destruct (Z.geb_spec (stars p) 1000), (Z.geb_spec (stars p) 100), (Z.ltb_spec (stars p) 1000),
    (Z.ltb_spec (stars p) 100); simpl; split; intros Hin; try lia;
    repeat (destruct Hin as [Hin|Hin]; try discriminate Hin); try contradiction; auto.
Qed.

Lemma border_one p :
  length (filter (fun k => existsb (String.eqb k)
                             ["border-purple-500"; "border-purple-300"; "border-purple-100"])
            (borderClasses p)) = 1%nat.
Proof.
  unfold borderClasses.
  destruct (Z.geb_spec (stars p) 1000), (Z.geb_spec (stars p) 100), (Z.ltb_spec (stars p) 1000),
    (Z.ltb_spec (stars p) 100); simpl; try lia; reflexivity.
Qed.

(** X12. On the ranked page every card has exactly one of the three
    border classes, and the borders go down the list: a card with the
    strongest border never comes after one without it, and a card with the
    weakest border never comes before one without it. *)
Theorem ranked_page_borders_descend (fakes : list Project) :
  Forall (fun p =>
            length (filter (fun k => existsb (String.eqb k)
                                       ["border-purple-500"; "border-purple-300";
                                        "border-purple-100"])
                      (borderClasses p)) = 1%nat)
    (getStaticProps_ranked fakes)
  /\ StronglySorted
       (fun a b =>
          (In "border-purple-500" (borderClasses b) -> In "border-purple-500" (borderClasses a))
          /\ (In "border-purple-100" (borderClasses a) -> In "border-purple-100" (borderClasses b)))
       (getStaticProps_ranked fakes).
Proof.
  split; [apply Forall_forall; intros p _; apply border_one|].
  unfold getStaticProps_ranked. rewrite bufferIterable_loadProjects.
  apply (StronglySorted_impl (le_by byStarsDescending)).
  - intros a b Hab. unfold le_by, byStarsDescending in Hab.
    rewrite !border_strong, !border_weak. lia.
  - apply sort_StronglySorted, byStarsDescending_consistent.
Qed.

(** X13. The two pages show the same projects, the ones of the data
    source, each as often as it is there: no card is lost, none is added. *)
Theorem pages_show_every_project (localeCompare : string -> string -> Z)
  (fakes : list Project) :
  Permutation (map deleteUndefinedProject fakes) (getStaticProps_grid localeCompare fakes)
  /\ Permutation (map deleteUndefinedProject fakes) (getStaticProps_ranked fakes)
  /\ Permutation (getStaticProps_grid localeCompare fakes) (getStaticProps_ranked fakes)
  /\ map name (map deleteUndefinedProject fakes) = map name fakes.
Proof.
  unfold getStaticProps_grid, getStaticProps_ranked.
  rewrite bufferIterable_loadProjects.
  pose proof (sort_Permutation (byArchivedThenName localeCompare)
                (map deleteUndefinedProject fakes)) as H1.
  pose proof (sort_Permutation byStarsDescending (map deleteUndefinedProject fakes)) as H2.
  split; [exact H1|]. split; [exact H2|]. split.
  - rewrite <- H1. exact H2.
  - rewrite map_map. reflexivity.
Qed.

(** *** The other loaders and the site address *)

Lemma bufferIterable_yieldAll {A : Type} (items : list A) :
  bufferIterable (yieldAll items) = items.
Proof. induction items as [|x items IH]; simpl; congruence. Qed.

Lemma trace_yieldAll {A : Type} (items : list A) :
  trace (yieldAll items) = map Produced items.
Proof. induction items as [|x items IH]; simpl; congruence. Qed.

(** X14. The loader that asks the environment yields nothing at all in
    production; elsewhere it yields what the loader of the fixture list
    yields, without awaiting any timer.  The loader of the speaking
    engagements yields its whole list, in order, in the same way. *)
Theorem loaders_with_yield_star (fakes : list Project) :
  bufferIterable (loadProjects_byEnvironment true fakes) = []
  /\ bufferIterable (loadProjects_byEnvironment false fakes)
     = bufferIterable (loadProjects fakes)
  /\ (forall isProduction,
        ~ In Suspended (trace (loadProjects_byEnvironment isProduction fakes)))
  /\ (forall (A : Type) (engagements : list A),
        bufferIterable (loadSpeakingEngagements engagements) = engagements
        /\ trace (loadSpeakingEngagements engagements) = map Produced engagements).
Proof.
  split; [reflexivity|]. split.
  - unfold loadProjects_byEnvironment. simpl.
    rewrite bufferIterable_yieldAll, bufferIterable_loadProjects. reflexivity.
  - split.
    + intros [|]; unfold loadProjects_byEnvironment; simpl; [tauto|].
      rewrite trace_yieldAll. intros H. apply in_map_iff in H as (x & Hx & _).
      discriminate Hx.
    + intros A engagements. unfold loadSpeakingEngagements.
      split; [apply bufferIterable_yieldAll | apply trace_yieldAll].
Qed.

Lemma isAbsoluteUrl_https_prefix v : isAbsoluteUrl ("https://" ++ v) = true.
Proof. rewrite isAbsoluteUrl_eq. reflexivity. Qed.

(** X15. The site address of the build: a [SITE_URL] that is set is
    taken as it is; without it the address is an absolute URL, except when
    [VERCEL_URL] is set to the empty string: then the address is empty and
    the default is not used. *)
Theorem siteUrl_absolute_or_empty :
  (forall (s : string) (VERCEL_URL : option string), siteUrl (Some s) VERCEL_URL = s)
  /\ siteUrl None (Some "") = ""
  /\ (forall VERCEL_URL : option string,
        VERCEL_URL <> Some "" -> isAbsoluteUrl (siteUrl None VERCEL_URL) = true)
  /\ (forall VERCEL_URL : option string,
        siteUrl None VERCEL_URL = "http://localhost:3000" <-> VERCEL_URL = None).
Proof.
  split; [reflexivity|]. split; [reflexivity|]. split.
  - intros [v|] Hv; [|reflexivity].
    destruct v as [|c v]; [congruence|].
    unfold siteUrl. simpl URLSearchParams.nonempty. cbv iota.
    apply isAbsoluteUrl_https_prefix.
  - intros [v|]; split; intros H; try reflexivity; try discriminate H.
    exfalso. unfold siteUrl in H. destruct v as [|c v]; simpl in H; discriminate H.
Qed.

Lemma siteUrl_absolute_or_empty_witness :
  Some "caleb.vercel.app" <> Some ""
  /\ isAbsoluteUrl (siteUrl None (Some "caleb.vercel.app")) = true.
Proof.
  split; [discriminate|].
  apply (proj1 (proj2 (proj2 siteUrl_absolute_or_empty))). discriminate.
Defined.

(** *** Cleaning and sorting *)

Lemma insert_map {A : Type} (compareFn : A -> A -> Z) (f : A -> A) x l :
  (forall a b, compareFn (f a) (f b) = compareFn a b) ->
  insert compareFn (f x) (map f l) = map f (insert compareFn x l).
Proof.
  intros H. induction l as [|y l IH]; [reflexivity|].
  simpl. rewrite H. destruct (compareFn x y <=? 0)%Z; [reflexivity|].
  simpl. rewrite IH. reflexivity.
Qed.

Lemma sort_map {A : Type} (compareFn : A -> A -> Z) (f : A -> A) l :
  (forall a b, compareFn (f a) (f b) = compareFn a b) ->
  sort compareFn (map f l) = map f (sort compareFn l).
Proof.
  intros H. induction l as [|x l IH]; [reflexivity|].
  simpl. rewrite IH. apply insert_map. assumption.
Qed.

Lemma deleteUndefinedProject_idempotent p :
  deleteUndefinedProject (deleteUndefinedProject p) = deleteUndefinedProject p.
Proof.
  destruct p as [n u a d h s dl l g]. unfold deleteUndefinedProject. simpl.
  destruct d, h, l; reflexivity.
Qed.

(** X16. In both pages the cleaning and the sort can be done in either
    order with the same result, and the ranked page computed from its own
    result is that result again. *)
Theorem clean_and_sort_commute (localeCompare : string -> string -> Z)
  (fakes : list Project) :
  getStaticProps_grid localeCompare fakes
  = map deleteUndefinedProject (sort (byArchivedThenName localeCompare) fakes)
  /\ getStaticProps_ranked fakes = map deleteUndefinedProject (sort byStarsDescending fakes)
  /\ getStaticProps_ranked (getStaticProps_ranked fakes) = getStaticProps_ranked fakes.
Proof.
  unfold getStaticProps_grid, getStaticProps_ranked.
  rewrite !bufferIterable_loadProjects.
  split; [apply sort_map; reflexivity|].
  split; [apply sort_map; reflexivity|].
  rewrite (sort_map byStarsDescending deleteUndefinedProject fakes) by reflexivity.
  assert (E : map deleteUndefinedProject
                (map deleteUndefinedProject (sort byStarsDescending fakes))
              = map deleteUndefinedProject (sort byStarsDescending fakes)).
  { rewrite map_map. apply map_ext. apply deleteUndefinedProject_idempotent. }
  rewrite E.
  rewrite (sort_map byStarsDescending deleteUndefinedProject) by reflexivity.
  f_equal. apply sort_idempotent, byStarsDescending_consistent.
Qed.
